(** * Modex ticket booking: the storage layer of [server/storage.ts]

    A shallow embedding of [DatabaseStorage] (server/storage.ts) over the
    tables declared in shared/schema.ts, and the properties of the seat
    reservation engine proved about it.

    Modelling conventions.
    - A table with a [varchar] primary key [id] is a [gmap string row]: the
      key of the map is the row's [id], so the primary key constraint holds
      by construction.
    - [timestamp] columns and JavaScript [Date]s are [Z] (milliseconds since
      the epoch); a nullable column is an [option].
    - [integer] columns are [Z]; [updateShowAvailableSeats], which adds a
      number of the caller's choice, checks the 32 bit range as the server
      does, while the counts of [attemptBooking] stay far from the bounds
      ([insertShowSchema] caps [totalSeats] at 500).
    - [gen_random_uuid()] is modelled as drawing an id that is not yet a key
      of the table ([fresh]).
    - The clock ([NOW()], [new Date()], [Date.now()]) and the rows that other
      in-flight transactions hold locked are inputs of an operation. *)

From stdpp Require Import base option list gmap strings fin_maps fin_sets
  sorting.
From Stdlib Require Import ZArith Lia.

Open Scope Z_scope.

(** ** shared/schema.ts *)

(** [seatStatusEnum] *)
Inductive seatStatusEnum := AVAILABLE | BOOKED | PENDING.

(** [bookingStatusEnum]; its [PENDING] member is written [BK_PENDING]. *)
Inductive bookingStatusEnum := BK_PENDING | CONFIRMED | FAILED.

#[global] Instance seatStatusEnum_eq_dec : EqDecision seatStatusEnum.
Proof. solve_decision. Defined.

#[global] Instance bookingStatusEnum_eq_dec : EqDecision bookingStatusEnum.
Proof. solve_decision. Defined.

(** A row of [shows] (without its key [id]). *)
Module Show.
Record t := mk {
  name : string;
  startTime : Z;
  totalSeats : Z;
  availableSeats : Z;
  createdAt : Z
}.
End Show.

(** A row of [seats] (without its key [id]). *)
Module Seat.
Record t := mk {
  showId : string;
  seatNumber : Z;
  status : seatStatusEnum;
  lockedUntil : option Z
}.
End Seat.

(** A row of [bookings] (without its key [id]). *)
Module Booking.
Record t := mk {
  showId : string;
  userId : option string;
  seatIds : list string;
  status : bookingStatusEnum;
  createdAt : Z;
  expiresAt : option Z
}.
End Booking.

#[global] Instance Seat_eq_dec : EqDecision Seat.t.
Proof. solve_decision. Defined.

#[global] Instance Show_eq_dec : EqDecision Show.t.
Proof. solve_decision. Defined.

#[global] Instance Booking_eq_dec : EqDecision Booking.t.
Proof. solve_decision. Defined.

(** [InsertShow]: what [insertShowSchema] lets through. *)
Record InsertShow := {
  ins_name : string;
  ins_startTime : Z;
  ins_totalSeats : Z
}.

(** [InsertBooking]: what [insertBookingSchema] lets through; [status] is
    optional and defaults to [PENDING] in the table. *)
Record InsertBooking := {
  ib_showId : string;
  ib_userId : option string;
  ib_seatIds : list string;
  ib_status : option bookingStatusEnum
}.

(** The three tables the storage layer works on. *)
Record Database := {
  shows : gmap string Show.t;
  seats : gmap string Seat.t;
  bookings : gmap string Booking.t
}.

Definition emptyDatabase : Database :=
  {| shows := ∅; seats := ∅; bookings := ∅ |}.

(** ** Errors and results *)

(** The errors [attemptBooking] throws by name, and the errors raised by the
    database driver and the query builder. *)
Inductive Error :=
  | SEATS_LOCKED
  | INVALID_SEATS
  | SEATS_UNAVAILABLE
  | LOCK_NOT_AVAILABLE        (* PostgreSQL 55P03, raised by NOWAIT *)
  | FOREIGN_KEY_VIOLATION     (* PostgreSQL 23503 *)
  | EMPTY_VALUES              (* drizzle: values() called with no value *)
  | SYNTAX_ERROR              (* PostgreSQL 42601 *)
  | WRONG_OBJECT_TYPE         (* PostgreSQL 42809 *)
  | INVALID_TEXT_REPRESENTATION   (* PostgreSQL 22P02 *)
  | NUMERIC_VALUE_OUT_OF_RANGE.   (* PostgreSQL 22003 *)

#[global] Instance Error_eq_dec : EqDecision Error.
Proof. solve_decision. Defined.

Inductive Outcome (A : Type) :=
  | Ok (a : A)
  | Throw (e : Error).
Arguments Ok {A} a.
Arguments Throw {A} e.

(** ** SQL building blocks *)

(** [UPDATE t SET ... WHERE P]: every row the predicate selects is replaced
    by [f row]; the other rows stay. *)
Definition update_where {A} (P : string → A → bool) (f : A → A)
    (m : gmap string A) : gmap string A :=
  map_imap (λ k r, Some (if P k r then f r else r)) m.

(** [SELECT * FROM t WHERE P]. *)
Definition select_where {A} (P : string → A → bool)
    (m : gmap string A) : gmap string A :=
  filter (λ kr, P kr.1 kr.2 = true) m.

(** [id = ANY($1)]. *)
Definition any_of (ids : list string) (id : string) : bool :=
  bool_decide (id ∈ ids).

(** PostgreSQL's reader of array literals: the elements other than NULL of a
    string such as [{s2,s3}], or nothing for a string that is no array
    literal, as an ordinary seat id is. The reader belongs to the database
    server, not to this repository: the operations take it as a parameter. *)
Class ArrayIn := array_in : string → option (list string).

(** [id = ANY(${seatIds})] inside drizzle's [sql] template. The JavaScript
    array is not bound as one array parameter: the query builder writes one
    parameter for each element, in parentheses, so that the server receives
    [ANY(())], [ANY(($1))] or [ANY(($1, $2, ...))]. The first is a syntax
    error; the last is a row where an array is required; in [ANY(($1))] the
    one string is read as an array literal. [sql_any seatIds] is the array
    the condition ranges over, when there is one. *)
Definition sql_any `{ArrayIn} (seatIds : list string) : Error + list string :=
  match seatIds with
  | [] => inl SYNTAX_ERROR
  | [x] =>
    match array_in x with
    | Some ids => inr ids
    | None => inl INVALID_TEXT_REPRESENTATION
    end
  | _ :: _ :: _ => inl WRONG_OBJECT_TYPE
  end.

(** The range of a PostgreSQL [integer]. *)
Definition int4 (z : Z) : bool :=
  bool_decide (-2147483648 ≤ z ≤ 2147483647).

(** [locked_until < now]; a comparison with NULL does not hold. *)
Definition expired (now : Z) (lockedUntil : option Z) : bool :=
  match lockedUntil with
  | Some t => bool_decide (t < now)
  | None => false
  end.

Definition with_seats (f : gmap string Seat.t → gmap string Seat.t)
    (db : Database) : Database :=
  {| shows := shows db; seats := f (seats db); bookings := bookings db |}.

Definition with_shows (f : gmap string Show.t → gmap string Show.t)
    (db : Database) : Database :=
  {| shows := f (shows db); seats := seats db; bookings := bookings db |}.

Definition with_bookings (f : gmap string Booking.t → gmap string Booking.t)
    (db : Database) : Database :=
  {| shows := shows db; seats := seats db; bookings := f (bookings db) |}.

(** ** A client connection ([pool.connect()]) and its transaction *)

(** [cur] is the database as this connection sees it; [snapshot] is the state
    to return to on ROLLBACK while a transaction is open. *)
Record Client := {
  cur : Database;
  snapshot : option Database
}.

(** The state-and-exception monad of the code run on one connection. *)
Definition Tx (A : Type) : Type := Client → Outcome A * Client.

Definition ret {A} (a : A) : Tx A := λ c, (Ok a, c).

Definition throw {A} (e : Error) : Tx A := λ c, (Throw e, c).

Definition bind {A B} (m : Tx A) (k : A → Tx B) : Tx B :=
  λ c, match m c with
       | (Ok a, c') => k a c'
       | (Throw e, c') => (Throw e, c')
       end.

(** [try { m } catch (e) { h e }] *)
Definition try_catch {A} (m : Tx A) (h : Error → Tx A) : Tx A :=
  λ c, match m c with
       | (Ok a, c') => (Ok a, c')
       | (Throw e, c') => h e c'
       end.

#[global] Instance Tx_ret : MRet Tx := @ret.
#[global] Instance Tx_bind : MBind Tx := λ A B k m, bind m k.

(** A statement that changes the connection's view of the database. *)
Definition exec (f : Database → Database) : Tx unit :=
  λ c, (Ok tt, {| cur := f (cur c); snapshot := snapshot c |}).

(** [client.query('BEGIN')] *)
Definition BEGIN : Tx unit :=
  λ c, (Ok tt, {| cur := cur c;
                  snapshot := match snapshot c with
                              | Some d => Some d
                              | None => Some (cur c)
                              end |}).

(** [client.query('ROLLBACK')]; outside a transaction it does nothing. *)
Definition ROLLBACK : Tx unit :=
  λ c, (Ok tt, match snapshot c with
               | Some d => {| cur := d; snapshot := None |}
               | None => c
               end).

(** [client.query('COMMIT')] *)
Definition COMMIT : Tx unit :=
  λ c, (Ok tt, {| cur := cur c; snapshot := None |}).

(** [pool.connect()] ... [client.release()]: what the other sessions see
    afterwards is the committed state. *)
Definition release (c : Client) : Database :=
  match snapshot c with
  | Some d => d
  | None => cur c
  end.

Definition with_client {A} (m : Tx A) (db : Database) : Outcome A * Database :=
  let '(r, c) := m {| cur := db; snapshot := None |} in (r, release c).

(** What an operation gets from outside: the clock, and the seat rows that
    other in-flight transactions hold locked. *)
Record Env := {
  now : Z;
  lockedByOthers : gset string
}.

(** [SELECT ... FROM seats WHERE P FOR UPDATE NOWAIT]: the selected rows,
    or error 55P03 when one of them is locked by another transaction. *)
Definition select_for_update_nowait (env : Env) (P : string → Seat.t → bool)
    : Tx (list (string * Seat.t)) :=
  λ c, let rows := select_where P (seats (cur c)) in
       if decide (dom rows ## lockedByOthers env)
       then (Ok (map_to_list rows), c)
       else (Throw LOCK_NOT_AVAILABLE, c).

(** ** server/storage.ts: show operations *)

Definition getShowById (id : string) (db : Database) : option Show.t :=
  shows db !! id.

(** [Array.from({ length: count }, (_, i) => ({ showId, seatNumber: i + 1,
    status: "AVAILABLE" }))]; [locked_until] takes its default, NULL. *)
Definition seatValues (showId : string) (count : Z) : list Seat.t :=
  (λ i : nat, Seat.mk showId (Z.of_nat i + 1) AVAILABLE None)
    <$> seq 0 (Z.to_nat count).

(** [db.insert(seats).values(seatValues).returning()]: the query builder
    refuses an empty list of values, and [show_id] references [shows.id]. *)
Definition createSeats (showId : string) (count : Z) (db : Database)
    : Outcome (list (string * Seat.t)) * Database :=
  let values := seatValues showId count in
  match values with
  | [] => (Throw EMPTY_VALUES, db)
  | _ =>
    match shows db !! showId with
    | None => (Throw FOREIGN_KEY_VIOLATION, db)
    | Some _ =>
      let rows := zip (fresh_list (length values) (dom (seats db))) values in
      (Ok rows, with_seats (λ m, list_to_map rows ∪ m) db)
    end
  end.

(** The two statements of [createShow] are not wrapped in a transaction. *)
Definition createShow (env : Env) (insertShow : InsertShow) (db : Database)
    : Outcome (string * Show.t) * Database :=
  let id := fresh (dom (shows db)) in
  let show := Show.mk (ins_name insertShow) (ins_startTime insertShow)
                (ins_totalSeats insertShow) (ins_totalSeats insertShow)
                (now env) in
  let db1 := with_shows (insert id show) db in
  match createSeats id (ins_totalSeats insertShow) db1 with
  | (Ok _, db2) => (Ok (id, show), db2)
  | (Throw e, db2) => (Throw e, db2)
  end.

(** [onDelete: "cascade"] on [seats.show_id] and [bookings.show_id]. *)
Definition deleteShow (id : string) (db : Database) : bool * Database :=
  (bool_decide (is_Some (shows db !! id)),
   {| shows := delete id (shows db);
      seats := filter (λ kr, Seat.showId kr.2 ≠ id) (seats db);
      bookings := filter (λ kr, Booking.showId kr.2 ≠ id) (bookings db) |}).

Definition add_available (delta : Z) (s : Show.t) : Show.t :=
  Show.mk (Show.name s) (Show.startTime s) (Show.totalSeats s)
    (Show.availableSeats s + delta) (Show.createdAt s).

(** [delta] is a JavaScript number that holds an integer. It is bound as an
    [integer] parameter, which the driver sends as text: from 10^21 on the
    text has an exponent and is no integer (22P02), and a number outside the
    32 bit range is refused (22003), both before any row is looked at. The
    sum is checked against the same range when the row is updated. *)
Definition updateShowAvailableSeats (id : string) (delta : Z) (db : Database)
    : Outcome unit * Database :=
  if bool_decide (10 ^ 21 ≤ Z.abs delta)
  then (Throw INVALID_TEXT_REPRESENTATION, db)
  else if negb (int4 delta) then (Throw NUMERIC_VALUE_OUT_OF_RANGE, db)
  else
    match shows db !! id with
    | None => (Ok tt, db)
    | Some show =>
      if int4 (Show.availableSeats show + delta)
      then (Ok tt,
            with_shows
              (update_where (λ k _, bool_decide (k = id)) (add_available delta))
              db)
      else (Throw NUMERIC_VALUE_OUT_OF_RANGE, db)
    end.

(** ** server/storage.ts: seat operations *)

(** [SET status = st, locked_until = lu] *)
Definition set_seat (st : seatStatusEnum) (lu : option Z) (s : Seat.t) : Seat.t :=
  Seat.mk (Seat.showId s) (Seat.seatNumber s) st lu.

(** [status = 'AVAILABLE' OR (status = 'PENDING' AND locked_until < NOW())] *)
Definition free_or_expired (now : Z) (s : Seat.t) : bool :=
  bool_decide (Seat.status s = AVAILABLE)
  || (bool_decide (Seat.status s = PENDING) && expired now (Seat.lockedUntil s)).

Definition lockSeats (env : Env) (seatIds : list string) (until : Z)
    (db : Database) : Outcome bool * Database :=
  with_client
    (try_catch
       (BEGIN;;
        lockResult ← select_for_update_nowait env
          (λ id s, any_of seatIds id && free_or_expired (now env) s);
        if decide (length lockResult ≠ length seatIds)
        then ROLLBACK;; mret false
        else
          exec (with_seats
                  (update_where (λ id _, any_of seatIds id)
                     (set_seat PENDING (Some until))));;
          COMMIT;;
          mret true)
       (λ _, ROLLBACK;; mret false))
    db.

Definition unlockSeats `{ArrayIn} (seatIds : list string) (db : Database)
    : Outcome unit * Database :=
  match sql_any seatIds with
  | inl e => (Throw e, db)
  | inr ids =>
    (Ok tt,
     with_seats
       (update_where
          (λ id s, any_of ids id && bool_decide (Seat.status s = PENDING))
          (set_seat AVAILABLE None))
       db)
  end.

Definition markSeatsAsBooked `{ArrayIn} (seatIds : list string) (db : Database)
    : Outcome unit * Database :=
  match sql_any seatIds with
  | inl e => (Throw e, db)
  | inr ids =>
    (Ok tt,
     with_seats
       (update_where (λ id _, any_of ids id) (set_seat BOOKED None))
       db)
  end.

(** [status = 'PENDING' AND locked_until < new Date()] *)
Definition pending_expired (now : Z) (s : Seat.t) : bool :=
  bool_decide (Seat.status s = PENDING) && expired now (Seat.lockedUntil s).

(** The number returned is the length of the [returning()] row list. *)
Definition releaseExpiredLocks (env : Env) (db : Database) : nat * Database :=
  (length (map_to_list (select_where (λ _ s, pending_expired (now env) s) (seats db))),
   with_seats
     (update_where (λ _ s, pending_expired (now env) s) (set_seat AVAILABLE None))
     db).

(** ** server/storage.ts: booking operations *)

Definition getBookingById (id : string) (db : Database) : option Booking.t :=
  bookings db !! id.

(** [INSERT INTO bookings ... RETURNING *]; [show_id] references [shows.id]. *)
Definition insert_booking (b : Booking.t) : Tx (string * Booking.t) :=
  λ c, match shows (cur c) !! Booking.showId b with
       | None => (Throw FOREIGN_KEY_VIOLATION, c)
       | Some _ =>
         let id := fresh (dom (bookings (cur c))) in
         (Ok (id, b),
          {| cur := with_bookings (insert id b) (cur c);
             snapshot := snapshot c |})
       end.

(** [createBooking]: a booking row that expires two minutes from now. The
    INSERT is a statement of its own, on a connection without transaction. *)
Definition createBooking (env : Env) (insertBooking : InsertBooking)
    (db : Database) : Outcome (string * Booking.t) * Database :=
  let expiresAt := now env + 2 * 60 * 1000 in
  with_client
    (insert_booking
       (Booking.mk (ib_showId insertBooking) (ib_userId insertBooking)
          (ib_seatIds insertBooking)
          (default BK_PENDING (ib_status insertBooking))
          (now env) (Some expiresAt)))
    db.

Definition set_booking_status (st : bookingStatusEnum) (b : Booking.t) : Booking.t :=
  Booking.mk (Booking.showId b) (Booking.userId b) (Booking.seatIds b) st
    (Booking.createdAt b) (Booking.expiresAt b).

Definition updateBookingStatus (id : string) (status : bookingStatusEnum)
    (db : Database) : option Booking.t * Database :=
  (set_booking_status status <$> bookings db !! id,
   with_bookings
     (update_where (λ k _, bool_decide (k = id)) (set_booking_status status))
     db).

Definition booking_expired (now : Z) (b : Booking.t) : bool :=
  bool_decide (Booking.status b = BK_PENDING) && expired now (Booking.expiresAt b).

Definition getExpiredPendingBookings (env : Env) (db : Database)
    : list (string * Booking.t) :=
  map_to_list (select_where (λ _ b, booking_expired (now env) b) (bookings db)).

(** ** server/storage.ts: [attemptBooking] *)

(** The filter of [unavailableSeats]:
    [seat.status !== 'AVAILABLE' &&
     !(seat.status === 'PENDING' && seat.locked_until &&
       new Date(seat.locked_until) < now)] *)
Definition unavailable (now : Z) (row : string * Seat.t) : bool :=
  bool_decide (Seat.status row.2 ≠ AVAILABLE)
  && negb (bool_decide (Seat.status row.2 = PENDING)
           && expired now (Seat.lockedUntil row.2)).

(** [userId || null]: the empty string is falsy. *)
Definition or_null (userId : option string) : option string :=
  match userId with
  | Some EmptyString => None
  | u => u
  end.

(** The lock query, with its own [try]/[catch]. *)
Definition lock_seats_of_show (env : Env) (showId : string)
    (seatIds : list string) : Tx (list (string * Seat.t)) :=
  try_catch
    (select_for_update_nowait env
       (λ id s, any_of seatIds id && bool_decide (Seat.showId s = showId)))
    (λ _, ROLLBACK;; throw SEATS_LOCKED).

(** What [attemptBooking] does once it holds the row locks. *)
Definition book_locked_seats (env : Env) (showId : string)
    (seatIds : list string) (userId : option string)
    (lockResult : list (string * Seat.t)) : Tx (string * Booking.t) :=
  if decide (length lockResult ≠ length seatIds)
  then ROLLBACK;; throw INVALID_SEATS
  else
    let unavailableSeats := List.filter (unavailable (now env)) lockResult in
    if decide (0 < length unavailableSeats)%nat
    then ROLLBACK;; throw SEATS_UNAVAILABLE
    else
      exec (with_seats
              (update_where (λ id _, any_of seatIds id) (set_seat BOOKED None)));;
      exec (with_shows
              (update_where (λ k _, bool_decide (k = showId))
                 (add_available (- Z.of_nat (length seatIds)))));;
      row ← insert_booking
              (Booking.mk showId (or_null userId) seatIds CONFIRMED (now env) None);
      COMMIT;;
      mret row.

Definition attemptBooking_tx (env : Env) (showId : string)
    (seatIds : list string) (userId : option string) : Tx (string * Booking.t) :=
  try_catch
    (BEGIN;;
     lockResult ← lock_seats_of_show env showId seatIds;
     book_locked_seats env showId seatIds userId lockResult)
    (λ error, ROLLBACK;; throw error).

Definition attemptBooking (env : Env) (showId : string)
    (seatIds : list string) (userId : option string) (db : Database)
    : Outcome (string * Booking.t) * Database :=
  with_client (attemptBooking_tx env showId seatIds userId) db.

(** ** server/routes.ts: [POST /api/bookings] *)

Inductive Response :=
  | Created (booking : string * Booking.t)   (* 201 *)
  | BadRequest                               (* 400 *)
  | NotFound                                 (* 404 *)
  | Conflict                                 (* 409 *)
  | ServerError.                             (* 500 *)

(** The handler: the body is validated ([showId] and [seatIds] must be
    non-empty), the show must exist and lie in the future, and the named
    errors of [attemptBooking] are mapped to 409 and 400; any other error
    ends in 500. *)
Definition postBooking (env : Env) (showId : string) (seatIds : list string)
    (userId : option string) (db : Database) : Response * Database :=
  if bool_decide (showId = EmptyString) || bool_decide (seatIds = [])
  then (BadRequest, db)
  else
    match getShowById showId db with
    | None => (NotFound, db)
    | Some show =>
      if bool_decide (Show.startTime show < now env) then (BadRequest, db)
      else
        match attemptBooking env showId seatIds userId db with
        | (Ok booking, db') => (Created booking, db')
        | (Throw SEATS_LOCKED, db') => (Conflict, db')
        | (Throw SEATS_UNAVAILABLE, db') => (Conflict, db')
        | (Throw INVALID_SEATS, db') => (BadRequest, db')
        | (Throw _, db') => (ServerError, db')
        end
    end.

(** ** The second sweep of the reaper *)

(** Modelled from the spec: [fail(bookingId)] of the deferred mode, which
    "releases the associated seats (§4.1 release) and sets the Booking to
    FAILED". storage.ts has the two calls it is made of, [unlockSeats] and
    [updateBookingStatus], but src/ has no function that composes them. *)
Definition fail `{ArrayIn} (bookingId : string) (db : Database)
    : Outcome unit * Database :=
  match getBookingById bookingId db with
  | None => (Ok tt, db)
  | Some booking =>
    match unlockSeats (Booking.seatIds booking) db with
    | (Throw e, db') => (Throw e, db')
    | (Ok _, db') => (Ok tt, (updateBookingStatus bookingId FAILED db').2)
    end
  end.

(** [fail] applied to a list of booking rows, one after the other. "The
    Lease Reaper logs but does not propagate per-item failures" (§7): after
    a [fail] that throws, the sweep goes on with the next booking. *)
Definition fail_all `{ArrayIn} (rows : list (string * Booking.t))
    (db : Database) : Database :=
  foldl (λ d row, (fail row.1 d).2) db rows.

(** Modelled from the spec: sweep 2 of the lease reaper, "find all Bookings
    with status PENDING whose expiry deadline has passed; for each, invoke
    fail(bookingId)". storage.ts has the query, [getExpiredPendingBookings];
    the loop of the reaper is not under src/. *)
Definition reapExpiredBookings `{ArrayIn} (env : Env) (db : Database)
    : Database :=
  fail_all (getExpiredPendingBookings env db) db.

(** ** Attempts that run at the same time *)

(** [attemptBooking] runs on its own connection, and PostgreSQL interleaves
    the transactions of several connections. The model below follows the two
    places where the code of one attempt meets the others.
    - The lock query ([FOR UPDATE NOWAIT]) either fails at once, because a
      selected row is locked by another transaction, or returns the rows
      and holds their locks until the transaction ends.
    - Everything after the lock query works on the rows just read and on
      rows this transaction has locked, plus the counter of the show, whose
      UPDATE is relative ([available_seats - $1]) and serialised by the row
      lock of the show; READ COMMITTED makes the writes visible to the other
      connections at COMMIT. So the rest of the attempt takes effect as one
      step on the committed state at the time it ends. *)

Record Request := {
  rq_showId : string;
  rq_seatIds : list string;
  rq_userId : option string
}.

(** An attempt between its lock query and its COMMIT or ROLLBACK. *)
Record InFlight := {
  fl_request : Request;
  fl_lockResult : list (string * Seat.t)
}.

(** The committed database, the attempts in flight (by connection), and the
    attempts that have returned, latest first. *)
Record System := {
  sys_db : Database;
  sys_inflight : gmap nat InFlight;
  sys_returned : list (Request * Outcome (string * Booking.t))
}.

Definition initial (db : Database) : System :=
  {| sys_db := db; sys_inflight := ∅; sys_returned := [] |}.

(** The seat rows locked by the attempts in flight. *)
Definition heldRows (inflight : gmap nat InFlight) : gset string :=
  ⋃ ((λ a, list_to_set (fl_lockResult a).*1) <$> (map_to_list inflight).*2).

(** First half of [attemptBooking_tx]: BEGIN and the lock query. *)
Definition attemptBooking_lock (env : Env) (rq : Request)
    : Tx (list (string * Seat.t)) :=
  try_catch
    (BEGIN;; lock_seats_of_show env (rq_showId rq) (rq_seatIds rq))
    (λ error, ROLLBACK;; throw error).

(** Second half of [attemptBooking_tx]: from the row count test to COMMIT. *)
Definition attemptBooking_finish (env : Env) (rq : Request)
    (lockResult : list (string * Seat.t)) : Tx (string * Booking.t) :=
  try_catch
    (book_locked_seats env (rq_showId rq) (rq_seatIds rq) (rq_userId rq)
       lockResult)
    (λ error, ROLLBACK;; throw error).

(** Connection [k] starts an attempt at time [t]. The rows it finds locked
    are those of the attempts in flight, and any rows [busy] that are locked
    for a moment by a lock query that is about to fail. *)
Definition sys_lock (k : nat) (t : Z) (busy : gset string) (rq : Request)
    (sys : System) : System :=
  let env := {| now := t;
                lockedByOthers := heldRows (sys_inflight sys) ∪ busy |} in
  match attemptBooking_lock env rq {| cur := sys_db sys; snapshot := None |} with
  | (Ok lockResult, _) =>
    {| sys_db := sys_db sys;
       sys_inflight := <[k := {| fl_request := rq;
                                 fl_lockResult := lockResult |}]>
                         (sys_inflight sys);
       sys_returned := sys_returned sys |}
  | (Throw e, c) =>
    {| sys_db := release c;
       sys_inflight := sys_inflight sys;
       sys_returned := (rq, Throw e) :: sys_returned sys |}
  end.

(** Connection [k] runs the rest of its attempt at time [t] and returns. *)
Definition sys_finish (k : nat) (t : Z) (sys : System) : System :=
  match sys_inflight sys !! k with
  | None => sys
  | Some a =>
    let env := {| now := t; lockedByOthers := ∅ |} in
    let '(r, c) :=
      attemptBooking_finish env (fl_request a) (fl_lockResult a)
        {| cur := sys_db sys; snapshot := Some (sys_db sys) |} in
    {| sys_db := release c;
       sys_inflight := delete k (sys_inflight sys);
       sys_returned := (fl_request a, r) :: sys_returned sys |}
  end.

Inductive sys_step : System → System → Prop :=
  | step_lock k t busy rq sys :
      sys_inflight sys !! k = None →
      sys_step sys (sys_lock k t busy rq sys)
  | step_finish k t sys :
      is_Some (sys_inflight sys !! k) →
      sys_step sys (sys_finish k t sys).

(** ** Sequences of committed operations *)

(** One committed operation of the storage layer. The two reaper sweeps are
    [releaseExpiredLocks] and, for each overdue booking, [unlockSeats]
    followed by [updateBookingStatus]. *)
Inductive committed `{ArrayIn} : Database → Database → Prop :=
  | committed_createShow env insertShow db :
      committed db (createShow env insertShow db).2
  | committed_deleteShow id db :
      committed db (deleteShow id db).2
  | committed_attemptBooking env showId seatIds userId db :
      committed db (attemptBooking env showId seatIds userId db).2
  | committed_lockSeats env seatIds until db :
      committed db (lockSeats env seatIds until db).2
  | committed_unlockSeats seatIds db :
      committed db (unlockSeats seatIds db).2
  | committed_releaseExpiredLocks env db :
      committed db (releaseExpiredLocks env db).2
  | committed_createBooking env insertBooking db :
      committed db (createBooking env insertBooking db).2
  | committed_updateBookingStatus id status db :
      committed db (updateBookingStatus id status db).2.

(** ** server/storage.ts: reads of shows and seats *)

(** [orderBy(seats.seatNumber)] *)
Definition by_seatNumber (a b : string * Seat.t) : Prop :=
  Seat.seatNumber a.2 ≤ Seat.seatNumber b.2.

#[global] Instance by_seatNumber_dec a b : Decision (by_seatNumber a b).
Proof. unfold by_seatNumber. apply _. Defined.

#[global] Instance by_seatNumber_total : Total by_seatNumber.
Proof. intros a b. unfold by_seatNumber. lia. Qed.

(** [orderBy(shows.startTime)] *)
Definition by_startTime (a b : string * Show.t) : Prop :=
  Show.startTime a.2 ≤ Show.startTime b.2.

#[global] Instance by_startTime_dec a b : Decision (by_startTime a b).
Proof. unfold by_startTime. apply _. Defined.

#[global] Instance by_startTime_total : Total by_startTime.
Proof. intros a b. unfold by_startTime. lia. Qed.

(** [getAllShows]: every show, by start time. The order of rows with the
    same key is left open by SQL; the model takes the one of the sort. *)
Definition getAllShows (db : Database) : list (string * Show.t) :=
  merge_sort by_startTime (map_to_list (shows db)).

(** [getSeatsByShowId]: the seats of the show, by seat number. *)
Definition getSeatsByShowId (showId : string) (db : Database)
    : list (string * Seat.t) :=
  merge_sort by_seatNumber
    (map_to_list
       (select_where (λ _ s, bool_decide (Seat.showId s = showId)) (seats db))).

(** [getShowWithSeats]: [{ ...show, seats: showSeats }], or [undefined]. *)
Definition getShowWithSeats (id : string) (db : Database)
    : option (Show.t * list (string * Seat.t)) :=
  match getShowById id db with
  | None => None
  | Some show => Some (show, getSeatsByShowId id db)
  end.

(** ** server/storage.ts: user operations *)

(** A row of [users] (without its key [id]); [username] is [unique()]. *)
Module User.
Record t := mk {
  username : string;
  password : string
}.
End User.

(** PostgreSQL 23505, raised by the unique constraint on [username]. *)
Inductive UserError := UNIQUE_VIOLATION.

Definition getUser (id : string) (users : gmap string User.t)
    : option User.t :=
  users !! id.

(** [const [user] = await db.select()...]: the first row, if any. *)
Definition getUserByUsername (username : string) (users : gmap string User.t)
    : option (string * User.t) :=
  head (map_to_list
          (select_where (λ _ u, bool_decide (User.username u = username))
             users)).

Definition createUser (insertUser : User.t) (users : gmap string User.t)
    : (UserError + string * User.t) * gmap string User.t :=
  if decide (select_where
               (λ _ u, bool_decide (User.username u = User.username insertUser))
               users = ∅)
  then let id := fresh (dom users) in
       (inr (id, insertUser), <[id := insertUser]> users)
  else (inl UNIQUE_VIOLATION, users).

(** ** client/src/pages/Booking.tsx and client/src/components/SeatGrid.tsx *)

(** [handleSeatToggle], as the function given to [setSelectedSeats]. *)
Definition handleSeatToggle (seatId : string) (prev : list string)
    : list string :=
  if bool_decide (seatId ∈ prev)
  then List.filter (λ id, bool_decide (id ≠ seatId)) prev
  else prev ++ [seatId].

(** The strings ["selected"], ["booked"] and ["available"]. *)
Inductive SeatDisplay := seat_selected | seat_booked | seat_available.

#[global] Instance SeatDisplay_eq_dec : EqDecision SeatDisplay.
Proof. solve_decision. Defined.

(** [getSeatStatus] of [SeatGrid]. *)
Definition getSeatStatus (selectedSeats : list string)
    (seat : string * Seat.t) : SeatDisplay :=
  if bool_decide (seat.1 ∈ selectedSeats) then seat_selected
  else if bool_decide (Seat.status seat.2 = BOOKED)
          || bool_decide (Seat.status seat.2 = PENDING)
  then seat_booked
  else seat_available.

(** [status === "available" || status === "selected"] *)
Definition isInteractive (status : SeatDisplay) : bool :=
  bool_decide (status = seat_available) || bool_decide (status = seat_selected).

(** The [onClick] of a seat button, with [onSeatToggle = handleSeatToggle]. *)
Definition onSeatClick (disabled : bool) (seat : string * Seat.t)
    (selectedSeats : list string) : list string :=
  if isInteractive (getSeatStatus selectedSeats seat) && negb disabled
  then handleSeatToggle seat.1 selectedSeats
  else selectedSeats.

(** A sequence of clicks on the buttons of the grid, from the selection
    [useState<string[]>([])] starts with. *)
Definition clickSeats (disabled : bool) (clicks : list (string * Seat.t))
    : list string :=
  foldl (λ sel seat, onSeatClick disabled seat sel) [] clicks.

(** [handleConfirmBooking]: with no seat selected nothing is sent; otherwise
    the request [{ showId, seatIds }] goes to [POST /api/bookings]. *)
Definition handleConfirmBooking (env : Env) (showId : string)
    (selectedSeats : list string) (db : Database)
    : option (Response * Database) :=
  match selectedSeats with
  | [] => None
  | _ => Some (postBooking env showId selectedSeats None db)
  end.

(** * Specification *)

(** ** The queries of [attemptBooking] and [lockSeats], and what a
    successful attempt writes *)

(** The rows the lock query of [attemptBooking] selects. *)
Definition lock_rows (showId : string) (seatIds : list string) (db : Database)
    : gmap string Seat.t :=
  select_where
    (λ id s, any_of seatIds id && bool_decide (Seat.showId s = showId))
    (seats db).

(** The row [attemptBooking] inserts. *)
Definition confirmed_booking (env : Env) (showId : string)
    (seatIds : list string) (userId : option string) : Booking.t :=
  Booking.mk showId (or_null userId) seatIds CONFIRMED (now env) None.

(** The database a successful [attemptBooking] commits. *)
Definition booked_db (env : Env) (showId : string) (seatIds : list string)
    (userId : option string) (db : Database) : Database :=
  {| shows := update_where (λ k _, bool_decide (k = showId))
                (add_available (- Z.of_nat (length seatIds))) (shows db);
     seats := update_where (λ id _, any_of seatIds id) (set_seat BOOKED None)
                (seats db);
     bookings := <[fresh (dom (bookings db)) :=
                    confirmed_booking env showId seatIds userId]> (bookings db) |}.

(** The rows the lock query of [lockSeats] selects. *)
Definition free_rows (env : Env) (seatIds : list string) (db : Database)
    : gmap string Seat.t :=
  select_where (λ id s, any_of seatIds id && free_or_expired (now env) s)
    (seats db).

(** ** Predicates of the claims *)

(** The four outcomes the specification lists: the call returns a booking,
    which is CONFIRMED, or it throws one error, which is one of the three
    named ones. *)
Definition listed_outcome (r : Outcome (string * Booking.t)) : Prop :=
  match r with
  | Ok (_, b) => Booking.status b = CONFIRMED
  | Throw e => e = SEATS_LOCKED ∨ e = INVALID_SEATS ∨ e = SEATS_UNAVAILABLE
  end.

(** Every seat row refers to a show row (the foreign key of [seats.show_id]). *)
Definition seats_reference_shows (db : Database) : Prop :=
  ∀ id s, seats db !! id = Some s → is_Some (shows db !! Seat.showId s).

(** The effects of a successful attempt. *)
Definition booked (showId : string) (seatIds : list string)
    (db : Database) (id : string) (b : Booking.t) (db' : Database) : Prop :=
  Booking.status b = CONFIRMED
  ∧ Booking.showId b = showId
  ∧ Booking.seatIds b = seatIds
  ∧ bookings db !! id = None
  ∧ bookings db' !! id = Some b
  ∧ (∀ sid, sid ∈ seatIds →
       ∃ s, seats db' !! sid = Some s ∧ Seat.status s = BOOKED)
  ∧ (∃ sh, shows db !! showId = Some sh
       ∧ shows db' !! showId
         = Some (add_available (- Z.of_nat (length seatIds)) sh)).

(** A seat that a new attempt may take: free, or held with a lease that has
    run out. *)
Definition acquirable (now : Z) (s : Seat.t) : Prop :=
  Seat.status s = AVAILABLE
  ∨ (Seat.status s = PENDING
     ∧ ∃ t, Seat.lockedUntil s = Some t ∧ t < now).

(** A hold whose deadline is set and lies before [now]. *)
Definition lapsed_hold (now : Z) (s : Seat.t) : Prop :=
  Seat.status s = PENDING
  ∧ match Seat.lockedUntil s with Some t => t < now | None => False end.

#[global] Instance lapsed_hold_dec now s : Decision (lapsed_hold now s).
Proof. unfold lapsed_hold. destruct (Seat.lockedUntil s); apply _. Defined.

(** The seats a sweep at time [now] has to reclaim. *)
Definition lapsed (now : Z) (db : Database) : gset string :=
  dom (filter (λ kr : string * Seat.t, lapsed_hold now kr.2) (seats db)).

(** [lockedUntil] is set if and only if the status is PENDING. *)
Definition seat_inv (s : Seat.t) : Prop :=
  is_Some (Seat.lockedUntil s) ↔ Seat.status s = PENDING.

Definition seats_inv (db : Database) : Prop :=
  ∀ id s, seats db !! id = Some s → seat_inv s.

(** The seats of a show that are BOOKED. *)
Definition bookedSeats (showId : string) (db : Database) : gset string :=
  dom (select_where
         (λ _ s, bool_decide (Seat.showId s = showId)
                 && bool_decide (Seat.status s = BOOKED))
         (seats db)).

(** [availableSeats == totalSeats − count(seats where status = BOOKED)],
    for every show of the database. *)
Definition counter_ok (db : Database) : Prop :=
  ∀ id sh, shows db !! id = Some sh →
    Show.availableSeats sh
    = Show.totalSeats sh - Z.of_nat (size (bookedSeats id db)).

(** The two properties every committed state of the inventory has. *)
Definition consistent (db : Database) : Prop :=
  counter_ok db ∧ seats_reference_shows db.

(** The seats of the bookings the returned attempts obtained. *)
Definition confirmedSeats
    (returned : list (Request * Outcome (string * Booking.t))) : list string :=
  concat ((λ x, match x.2 with
                | Ok (_, b) => Booking.seatIds b
                | Throw _ => []
                end) <$> returned).

(** The number of seats of a show the returned attempts obtained. *)
Definition confirmedCount (showId : string)
    (returned : list (Request * Outcome (string * Booking.t))) : nat :=
  length (confirmedSeats
            (List.filter (λ x, bool_decide (rq_showId x.1 = showId)) returned)).

(** A request for distinct seats of an existing show. *)
Definition valid_request (db : Database) (rq : Request) : Prop :=
  NoDup (rq_seatIds rq)
  ∧ is_Some (shows db !! rq_showId rq)
  ∧ ∀ id, id ∈ rq_seatIds rq →
      ∃ s, seats db !! id = Some s ∧ Seat.showId s = rq_showId rq.

(** How an attempt may end when it asked for distinct seats of the show. *)
Definition contention_outcome (rq : Request)
    (r : Outcome (string * Booking.t)) : Prop :=
  (∃ bid b, r = Ok (bid, b) ∧ Booking.status b = CONFIRMED
            ∧ Booking.showId b = rq_showId rq
            ∧ Booking.seatIds b = rq_seatIds rq)
  ∨ r = Throw SEATS_LOCKED
  ∨ r = Throw SEATS_UNAVAILABLE.

(** What holds in every state of the system started on [db0]. *)
Record sys_inv (db0 : Database) (sys : System) : Prop := {
  inv_rows : ∀ k a, sys_inflight sys !! k = Some a →
    fl_lockResult a
    = map_to_list (lock_rows (rq_showId (fl_request a))
                     (rq_seatIds (fl_request a)) (sys_db sys));
  inv_disjoint : ∀ k1 k2 a1 a2 id, k1 ≠ k2 →
    sys_inflight sys !! k1 = Some a1 → sys_inflight sys !! k2 = Some a2 →
    id ∈ (fl_lockResult a1).*1 → id ∉ (fl_lockResult a2).*1;
  inv_booked : ∀ id, id ∈ confirmedSeats (sys_returned sys) →
    ∃ s, seats (sys_db sys) !! id = Some s ∧ Seat.status s = BOOKED;
  inv_nodup : NoDup (confirmedSeats (sys_returned sys));
  inv_counter : ∀ sid,
    Show.availableSeats <$> shows (sys_db sys) !! sid
    = (λ sh, Show.availableSeats sh
             - Z.of_nat (confirmedCount sid (sys_returned sys)))
        <$> shows db0 !! sid;
  inv_showId : ∀ id,
    Seat.showId <$> seats (sys_db sys) !! id = Seat.showId <$> seats db0 !! id;
  inv_outcome : ∀ rq r, (rq, r) ∈ sys_returned sys →
    valid_request db0 rq → contention_outcome rq r;
  inv_bookings : ∀ rq bid b, (rq, Ok (bid, b)) ∈ sys_returned sys →
    bookings (sys_db sys) !! bid = Some b ∧ Booking.status b = CONFIRMED
}.

(** What C9 states, for one database and one sweep. *)
Definition sweep_frees_seats `{ArrayIn} (env : Env) (db : Database) : Prop :=
  ∀ bid b, bookings db !! bid = Some b →
    Booking.status b = BK_PENDING →
    (∃ t, Booking.expiresAt b = Some t ∧ t < now env) →
    ∃ b', bookings (reapExpiredBookings env db) !! bid = Some b'
      ∧ Booking.status b' = FAILED
      ∧ ∀ id, id ∈ Booking.seatIds b →
          ∃ s, seats (reapExpiredBookings env db) !! id = Some s
               ∧ Seat.status s = AVAILABLE.

(** ** Sample data used to run the operations *)

Definition quiet (t : Z) : Env := {| now := t; lockedByOthers := ∅ |}.

Definition contended (t : Z) (ids : list string) : Env :=
  {| now := t; lockedByOthers := list_to_set ids |}.

(** How the server reads the strings of the examples where it expects an
    array: ["{s2,s3}"] is the array of ["s2"] and ["s3"], and the seat ids
    ["s1"], ["s2"] and ["s3"] are no array literals. *)
Definition sampleArrays : ArrayIn :=
  λ x, if decide (x = "{s2,s3}") then Some ["s2"; "s3"] else None.

(** One show ["show1"] with three seats: ["s1"] is free, ["s2"] is held until
    time 500, ["s3"] is booked. *)
Definition sampleDb : Database :=
  {| shows := {[ "show1" := Show.mk "Concert" 100000 3 2 0 ]};
     seats := {[ "s1" := Seat.mk "show1" 1 AVAILABLE None;
                 "s2" := Seat.mk "show1" 2 PENDING (Some 500);
                 "s3" := Seat.mk "show1" 3 BOOKED None ]};
     bookings := ∅ |}.

(** The scenario of the specification: a show with three free seats;
    request A asks for the first two and request B for the last two while A
    is in flight. *)
Definition threeSeats : Database :=
  {| shows := {[ "show1" := Show.mk "Concert" 100000 3 3 0 ]};
     seats := {[ "s1" := Seat.mk "show1" 1 AVAILABLE None;
                 "s2" := Seat.mk "show1" 2 AVAILABLE None;
                 "s3" := Seat.mk "show1" 3 AVAILABLE None ]};
     bookings := ∅ |}.

(** The deferred flow: at time 400 the seats ["s1"] and ["s2"] of
    [threeSeats] are held until time 500000, and a pending booking is made
    for them; the booking expires two minutes later. *)
Definition heldDb : Database :=
  (createBooking (quiet 400)
     {| ib_showId := "show1"; ib_userId := Some "u1";
        ib_seatIds := ["s1"; "s2"]; ib_status := None |}
     (lockSeats (quiet 400) ["s1"; "s2"] 500000 threeSeats).2).2.

Definition requestA : Request :=
  {| rq_showId := "show1"; rq_seatIds := ["s1"; "s2"]; rq_userId := Some "a" |}.

Definition requestB : Request :=
  {| rq_showId := "show1"; rq_seatIds := ["s2"; "s3"]; rq_userId := Some "b" |}.

Definition raceAB : System :=
  sys_finish 1 30
    (sys_lock 2 20 ∅ requestB (sys_lock 1 10 ∅ requestA (initial threeSeats))).

(** Two users. *)
Definition sampleUsers : gmap string User.t :=
  {[ "u1" := User.mk "ann" "pw1"; "u2" := User.mk "bob" "pw2" ]}.

(** ** Predicates of the further properties *)

(** Every booking row refers to a show row (the foreign key of
    [bookings.show_id]). *)
Definition bookings_reference_shows (db : Database) : Prop :=
  ∀ id b, bookings db !! id = Some b → is_Some (shows db !! Booking.showId b).

(** No two user rows have the same [username]. *)
Definition usernames_unique (users : gmap string User.t) : Prop :=
  ∀ id1 id2 u1 u2, users !! id1 = Some u1 → users !! id2 = Some u2 →
    User.username u1 = User.username u2 → id1 = id2.


(** * Proofs *)

(** ** Facts about the SQL building blocks *)

Section tables.
Context {A : Type}.
Implicit Types (m : gmap string A) (P : string → A → bool) (f : A → A).

Lemma lookup_update_where P f m k :
  update_where P f m !! k = (λ r, if P k r then f r else r) <$> m !! k.
Proof.
  unfold update_where. rewrite map_lookup_imap.
  by destruct (m !! k).
Qed.

Lemma dom_update_where P f m : dom (update_where P f m) = dom m.
Proof.
  apply set_eq. intros k. rewrite !elem_of_dom, lookup_update_where.
  by rewrite fmap_is_Some.
Qed.

Lemma lookup_select_where P m k r :
  select_where P m !! k = Some r ↔ m !! k = Some r ∧ P k r = true.
Proof. unfold select_where. by rewrite map_lookup_filter_Some. Qed.

Lemma elem_of_dom_select_where P m k :
  k ∈ dom (select_where P m) ↔ ∃ r, m !! k = Some r ∧ P k r = true.
Proof.
  rewrite elem_of_dom. unfold is_Some.
  by setoid_rewrite lookup_select_where.
Qed.

Lemma update_where_none P f m :
  (∀ k r, m !! k = Some r → P k r = false) → update_where P f m = m.
Proof.
  intros H. apply map_eq. intros k. rewrite lookup_update_where.
  destruct (m !! k) as [r|] eqn:E; [|done]. simpl. by rewrite (H k r E).
Qed.

Lemma select_where_none P m :
  (∀ k r, m !! k = Some r → P k r = false) → select_where P m = ∅.
Proof.
  intros H. apply map_eq. intros k. rewrite lookup_empty.
  apply eq_None_not_Some. intros [r Hr].
  apply lookup_select_where in Hr as [Hk HP].
  rewrite (H k r Hk) in HP. discriminate.
Qed.

Lemma rowCount_select_where P m :
  length (map_to_list (select_where P m)) = size (dom (select_where P m)).
Proof. by rewrite length_map_to_list, size_dom. Qed.
End tables.

Lemma size_list_to_set_le (l : list string) :
  (size (list_to_set (C := gset string) l) ≤ length l)%nat.
Proof.
  induction l as [|y l IH].
  - rewrite list_to_set_nil, size_empty. done.
  - rewrite list_to_set_cons. cbn [length].
    rewrite size_union_alt, size_singleton.
    assert (size (list_to_set (C := gset string) l ∖ {[y]})
            ≤ size (list_to_set (C := gset string) l))%nat
      by (apply subseteq_size; set_solver).
    lia.
Qed.

(** A list of ids is duplicate-free exactly when it has as many elements as
    the set of its members. *)
Lemma size_list_to_set_NoDup (l : list string) :
  size (list_to_set (C := gset string) l) = length l → NoDup l.
Proof.
  induction l as [|x l IH]; [constructor|].
  rewrite list_to_set_cons. cbn [length]. intros Hsz.
  pose proof (size_list_to_set_le l) as Hle.
  destruct (decide (x ∈ l)) as [Hin|Hnin].
  - assert (Heq : {[x]} ∪ list_to_set l = list_to_set (C := gset string) l)
      by set_solver.
    rewrite Heq in Hsz. lia.
  - constructor; [done|]. apply IH.
    rewrite size_union in Hsz by set_solver.
    rewrite size_singleton in Hsz. lia.
Qed.

(** The row count test of [lockSeats] and [attemptBooking]: the query returns
    as many rows as ids were asked for exactly when the ids are pairwise
    distinct and each of them names a row that passes the rest of the WHERE
    clause. *)
Lemma rowCount_eq_length {A} (Q : A → bool) (ids : list string)
    (m : gmap string A) :
  length (map_to_list (select_where (λ id r, any_of ids id && Q r) m))
    = length ids
  ↔ NoDup ids ∧ ∀ id, id ∈ ids → ∃ r, m !! id = Some r ∧ Q r = true.
Proof.
  rewrite rowCount_select_where.
  set (rows := select_where _ m).
  assert (Hsub : dom rows ⊆ list_to_set (C := gset string) ids).
  { intros k Hk. apply elem_of_dom_select_where in Hk as (r & _ & HP).
    apply andb_true_iff in HP as [HP _].
    apply bool_decide_eq_true in HP. set_solver. }
  split.
  - intros Hlen.
    pose proof (subseteq_size _ _ Hsub) as H1.
    pose proof (size_list_to_set_le ids) as H2.
    assert (Hd : dom rows = list_to_set (C := gset string) ids).
    { apply set_subseteq_size_eq; [done|lia]. }
    split.
    + apply size_list_to_set_NoDup. lia.
    + intros id Hid.
      assert (Hin : id ∈ dom rows) by (rewrite Hd; set_solver).
      apply elem_of_dom_select_where in Hin as (r & Hr & HP).
      apply andb_true_iff in HP as [_ HQ]. eauto.
  - intros [Hnd Hall].
    assert (Hd : dom rows = list_to_set (C := gset string) ids).
    { apply set_eq. intros k. split; [apply Hsub|].
      intros Hk. apply elem_of_list_to_set in Hk.
      destruct (Hall k Hk) as (r & Hr & HQ).
      apply elem_of_dom_select_where. exists r. split; [done|].
      apply andb_true_iff. split; [|done].
      by apply bool_decide_eq_true. }
    rewrite Hd. by apply size_list_to_set.
Qed.

(** ** [attemptBooking], case by case *)

(** Runs the monadic code of one connection symbolically. *)
Ltac tx_unfold :=
  unfold with_client, try_catch, mbind, mret, Tx_bind, Tx_ret, bind, ret,
    throw, exec, BEGIN, ROLLBACK, COMMIT, release, select_for_update_nowait,
    insert_booking;
  cbn -[fresh].

Lemma attemptBooking_cases env showId seatIds userId db :
  attemptBooking env showId seatIds userId db =
    let rows := map_to_list (lock_rows showId seatIds db) in
    if decide (dom (lock_rows showId seatIds db) ## lockedByOthers env) then
      if decide (length rows ≠ length seatIds) then (Throw INVALID_SEATS, db)
      else if decide (0 < length (List.filter (unavailable (now env)) rows))%nat
      then (Throw SEATS_UNAVAILABLE, db)
      else match shows db !! showId with
           | None => (Throw FOREIGN_KEY_VIOLATION, db)
           | Some _ =>
             (Ok (fresh (dom (bookings db)),
                  confirmed_booking env showId seatIds userId),
              booked_db env showId seatIds userId db)
           end
    else (Throw SEATS_LOCKED, db).
Proof.
  unfold attemptBooking, attemptBooking_tx, lock_seats_of_show, lock_rows.
  tx_unfold.
  destruct (decide (dom _ ## _)); tx_unfold; [|done].
  unfold book_locked_seats.
  destruct (decide (length _ ≠ length seatIds)); tx_unfold; [done|].
  destruct (decide (0 < _)%nat); tx_unfold; [done|].
  rewrite lookup_update_where.
  destruct (shows db !! showId) as [sh|]; tx_unfold; done.
Qed.

(** What the row count and availability tests tell about the request. *)
Lemma lock_rows_complete showId seatIds db :
  length (map_to_list (lock_rows showId seatIds db)) = length seatIds
  ↔ NoDup seatIds
    ∧ ∀ id, id ∈ seatIds →
        ∃ s, seats db !! id = Some s ∧ Seat.showId s = showId.
Proof.
  unfold lock_rows.
  rewrite (rowCount_eq_length (λ s, bool_decide (Seat.showId s = showId))).
  split; intros [Hnd Hall]; (split; [done|]); intros id Hid;
    destruct (Hall id Hid) as (s & Hs & HQ); exists s; split; try done.
  - by apply bool_decide_eq_true in HQ.
  - by apply bool_decide_eq_true.
Qed.

Lemma unavailable_false now row :
  unavailable now row = false
  ↔ Seat.status row.2 = AVAILABLE
    ∨ (Seat.status row.2 = PENDING
       ∧ ∃ t, Seat.lockedUntil row.2 = Some t ∧ t < now).
Proof.
  unfold unavailable, expired. destruct row as [id [sh n st lu]]; simpl.
  destruct st, lu as [t|]; simpl; try case_bool_decide; simpl; naive_solver.
Qed.

Lemma no_unavailable_rows now (rows : list (string * Seat.t)) :
  ¬ (0 < length (List.filter (unavailable now) rows))%nat
  ↔ ∀ row, row ∈ rows → unavailable now row = false.
Proof.
  split.
  - intros Hlen row Hrow.
    destruct (unavailable now row) eqn:E; [|done].
    exfalso. apply Hlen.
    assert (Hin : In row (List.filter (unavailable now) rows)).
    { apply filter_In. split; [by apply list_elem_of_In|done]. }
    destruct (List.filter (unavailable now) rows); [done|simpl; lia].
  - intros Hall Hlen.
    destruct (List.filter (unavailable now) rows) as [|row l] eqn:E;
      [simpl in Hlen; lia|].
    assert (Hin : In row (List.filter (unavailable now) rows))
      by (rewrite E; by left).
    apply filter_In in Hin as [Hin Hun].
    apply list_elem_of_In in Hin. rewrite (Hall row Hin) in Hun. done.
Qed.

(** What holds after a call that returned a booking. *)
Lemma attemptBooking_success env showId seatIds userId db id b db' :
  attemptBooking env showId seatIds userId db = (Ok (id, b), db') →
  Booking.status b = CONFIRMED
  ∧ Booking.showId b = showId
  ∧ Booking.seatIds b = seatIds
  ∧ bookings db !! id = None
  ∧ bookings db' !! id = Some b
  ∧ (∀ sid, sid ∈ seatIds →
       ∃ s, seats db' !! sid = Some s ∧ Seat.status s = BOOKED)
  ∧ (∃ sh, shows db !! showId = Some sh
       ∧ shows db' !! showId
         = Some (add_available (- Z.of_nat (length seatIds)) sh)).
Proof.
  rewrite attemptBooking_cases. cbv zeta.
  destruct (decide (dom _ ## _)); [|done].
  destruct (decide (length _ ≠ length seatIds)) as [|Hlen]; [done|].
  destruct (decide (0 < _)%nat); [done|].
  destruct (shows db !! showId) as [sh|] eqn:Hsh; [|done].
  intros [= <- <- <-]. apply dec_stable in Hlen.
  apply lock_rows_complete in Hlen as [Hnd Hall].
  repeat split; try done.
  - apply not_elem_of_dom, is_fresh.
  - simpl. apply lookup_insert_eq.
  - intros sid Hsid. destruct (Hall sid Hsid) as (s & Hs & _).
    exists (set_seat BOOKED None s). split; [|done].
    simpl. rewrite lookup_update_where, Hs. simpl.
    unfold any_of. by rewrite bool_decide_eq_true_2.
  - exists sh. split; [done|]. simpl.
    rewrite lookup_update_where, Hsh. simpl.
    by rewrite bool_decide_eq_true_2.
Qed.

(** A failed attempt returns the database it was given. *)
Lemma attemptBooking_Throw_inv env showId seatIds userId db e db' :
  attemptBooking env showId seatIds userId db = (Throw e, db') → db' = db.
Proof.
  rewrite attemptBooking_cases. cbv zeta.
  repeat case_match; congruence.
Qed.

(** The errors of an attempt, and what each one tells. *)
Lemma attemptBooking_Throw_cases env showId seatIds userId db e db' :
  attemptBooking env showId seatIds userId db = (Throw e, db') →
  (e = SEATS_LOCKED
   ∧ ¬ dom (lock_rows showId seatIds db) ## lockedByOthers env)
  ∨ (e = INVALID_SEATS
     ∧ length (map_to_list (lock_rows showId seatIds db)) ≠ length seatIds)
  ∨ e = SEATS_UNAVAILABLE
  ∨ (e = FOREIGN_KEY_VIOLATION ∧ shows db !! showId = None).
Proof.
  rewrite attemptBooking_cases. cbv zeta.
  destruct (decide (dom _ ## _)); [|intros [= <- _]; by left].
  destruct (decide (length _ ≠ length seatIds));
    [intros [= <- _]; right; by left|].
  destruct (decide (0 < _)%nat); [intros [= <- _]; right; right; by left|].
  destruct (shows db !! showId) eqn:E; [done|].
  intros [= <- _]. right; right; by right.
Qed.

(** ** C2: an attempt that fails leaves the database as it was *)

(** C2. Whenever [attemptBooking] ends in an error, whichever it is, the
    whole database (every seat row, every show row with its counter, and the
    booking table) is exactly what it was before the call. *)
Theorem attemptBooking_error_rolls_back env showId seatIds userId db e :
  (attemptBooking env showId seatIds userId db).1 = Throw e →
  (attemptBooking env showId seatIds userId db).2 = db.
Proof.
  rewrite attemptBooking_cases. cbv zeta.
  destruct (decide (dom _ ## _)); [|done].
  destruct (decide (length _ ≠ length seatIds)); [done|].
  destruct (decide (0 < _)%nat); [done|].
  by destruct (shows db !! showId).
Qed.

Lemma attemptBooking_error_rolls_back_witness :
  (attemptBooking (quiet 1000) "show1" ["s1"; "s3"] None sampleDb).1
    = Throw SEATS_UNAVAILABLE
  ∧ (attemptBooking (quiet 1000) "show1" ["s1"; "s3"] None sampleDb).2
    = sampleDb.
Proof.
  split; [vm_compute; reflexivity|].
  apply (attemptBooking_error_rolls_back _ _ _ _ _ SEATS_UNAVAILABLE).
  vm_compute; reflexivity.
Defined.

(** ** C1: the outcomes of [attemptBooking] *)

(** C1, as stated, fails: called with an empty seat list for a show that
    does not exist, [attemptBooking] passes the three tests and the INSERT
    violates the foreign key of [bookings.show_id]; the error thrown is none
    of the three listed ones. *)
Lemma attemptBooking_unlisted_outcome :
  (attemptBooking (quiet 1000) "ghost" [] None emptyDatabase).1
    = Throw FOREIGN_KEY_VIOLATION
  ∧ ¬ listed_outcome
        (attemptBooking (quiet 1000) "ghost" [] None emptyDatabase).1.
Proof.
  assert (E : (attemptBooking (quiet 1000) "ghost" [] None emptyDatabase).1
              = Throw FOREIGN_KEY_VIOLATION) by (vm_compute; reflexivity).
  split; [exact E|]. rewrite E.
  intros [?|[?|?]]; discriminate.
Qed.

(** C1 (amended). On a database whose seats all refer to existing shows, a
    call that names an existing show or asks for at least one seat (the
    booking route guarantees both) has one of four outcomes: a CONFIRMED
    booking, or one of SEATS_LOCKED, INVALID_SEATS, SEATS_UNAVAILABLE. When
    a booking is returned, every requested seat is BOOKED, the counter of the
    show went down by the number of requested seats, and the booking is a new
    CONFIRMED row for this show and these seats. *)
Theorem attemptBooking_outcomes env showId seatIds userId db :
  seats_reference_shows db →
  seatIds ≠ [] ∨ is_Some (shows db !! showId) →
  let r := attemptBooking env showId seatIds userId db in
  listed_outcome r.1
  ∧ ∀ id b, r.1 = Ok (id, b) → booked showId seatIds db id b r.2.
Proof.
  intros Hfk Hreq r. split.
  - subst r. rewrite attemptBooking_cases. cbv zeta.
    destruct (decide (dom _ ## _)); [|by left].
    destruct (decide (length _ ≠ length seatIds)) as [|Hlen];
      [right; by left|].
    destruct (decide (0 < _)%nat); [right; by right|].
    destruct (shows db !! showId) as [sh|] eqn:Hsh; [done|].
    exfalso. apply dec_stable in Hlen.
      apply lock_rows_complete in Hlen as [_ Hall].
      destruct Hreq as [Hne|[? ?]]; [|done].
      destruct seatIds as [|sid l]; [done|].
      destruct (Hall sid) as (s & Hs & Hshow); [by left|].
      destruct (Hfk sid s Hs) as [sh Hsh']. congruence.
  - intros id b Hr. eapply attemptBooking_success.
    destruct r as [r1 r2] eqn:E. simpl in *. subst r1. exact E.
Qed.

Lemma attemptBooking_outcomes_witness :
  let r := attemptBooking (quiet 1000) "show1" ["s1"; "s2"] (Some "u1") sampleDb in
  listed_outcome r.1
  ∧ ∀ id b, r.1 = Ok (id, b) → booked "show1" ["s1"; "s2"] sampleDb id b r.2.
Proof.
  apply attemptBooking_outcomes.
  - intros id s Hs. unfold sampleDb in Hs. simpl in Hs.
    exists (Show.mk "Concert" 100000 3 2 0).
    destruct (decide (id = "s1")) as [->|?]; [by simplify_map_eq|].
    destruct (decide (id = "s2")) as [->|?]; [by simplify_map_eq|].
    destruct (decide (id = "s3")) as [->|?]; [by simplify_map_eq|].
    by simplify_map_eq.
  - left. discriminate.
Defined.

(** The calls that come through the booking route never end in the
    unlisted error: the route has looked the show up. *)
Lemma postBooking_no_ServerError env showId seatIds userId db :
  (postBooking env showId seatIds userId db).1 ≠ ServerError.
Proof.
  unfold postBooking, getShowById.
  destruct (_ || _); [done|].
  destruct (shows db !! showId) as [show|] eqn:Hshow; [|done].
  destruct (bool_decide _); [done|].
  destruct (attemptBooking env showId seatIds userId db) as [[b|e] db'] eqn:E;
    [done|].
  apply attemptBooking_Throw_cases in E
    as [[-> _]|[[-> _]|[->|[-> Hfk]]]]; try done.
  congruence.
Qed.

(** ** C10: a seat id listed twice *)

(** C10, as stated, fails: the lock query runs before the row count is
    compared, so when another transaction holds the row of a requested seat
    the call with a repeated id throws SEATS_LOCKED and not INVALID_SEATS. *)
Lemma attemptBooking_duplicate_contended :
  ¬ NoDup ["s1"; "s1"]
  ∧ (attemptBooking (contended 1000 ["s1"]) "show1" ["s1"; "s1"] None sampleDb).1
    = Throw SEATS_LOCKED
  ∧ (attemptBooking (contended 1000 ["s1"]) "show1" ["s1"; "s1"] None sampleDb).1
    ≠ Throw INVALID_SEATS.
Proof.
  split; [|split].
  - intros H. apply NoDup_cons in H as [H _]. apply H. by left.
  - vm_compute; reflexivity.
  - vm_compute. discriminate.
Qed.

(** C10 (amended). A call whose seat list repeats an id books nothing and
    leaves the database as it was; it throws INVALID_SEATS whenever the lock
    query gets its rows, whatever the state of the seats, and SEATS_LOCKED
    when one of the selected rows is locked by another transaction. *)
Theorem attemptBooking_duplicate env showId seatIds userId db :
  ¬ NoDup seatIds →
  (attemptBooking env showId seatIds userId db).1
    = (if decide (dom (lock_rows showId seatIds db) ## lockedByOthers env)
       then Throw INVALID_SEATS else Throw SEATS_LOCKED)
  ∧ (attemptBooking env showId seatIds userId db).2 = db.
Proof.
  intros Hdup. rewrite attemptBooking_cases. cbv zeta.
  destruct (decide (dom _ ## _)); [|done].
  destruct (decide (length _ ≠ length seatIds)) as [|Hlen]; [done|].
  exfalso. apply dec_stable in Hlen.
  apply lock_rows_complete in Hlen as [Hnd _]. done.
Qed.

Lemma attemptBooking_duplicate_witness :
  (attemptBooking (quiet 1000) "show1" ["s1"; "s1"] None sampleDb).1
    = Throw INVALID_SEATS
  ∧ (attemptBooking (quiet 1000) "show1" ["s1"; "s1"] None sampleDb).2
    = sampleDb.
Proof.
  assert (Hdup : ¬ NoDup ["s1"; "s1"]).
  { intros H. apply NoDup_cons in H as [H _]. apply H. by left. }
  destruct (attemptBooking_duplicate (quiet 1000) "show1" ["s1"; "s1"] None
              sampleDb Hdup) as [H1 H2].
  split; [|exact H2]. rewrite H1. vm_compute; reflexivity.
Defined.

(** ** [lockSeats], case by case *)

Lemma lockSeats_cases env seatIds until db :
  lockSeats env seatIds until db =
    if decide (dom (free_rows env seatIds db) ## lockedByOthers env) then
      if decide (length (map_to_list (free_rows env seatIds db))
                 ≠ length seatIds)
      then (Ok false, db)
      else (Ok true,
            with_seats
              (update_where (λ id _, any_of seatIds id)
                 (set_seat PENDING (Some until))) db)
    else (Ok false, db).
Proof.
  unfold lockSeats, free_rows. tx_unfold.
  destruct (decide (dom _ ## _)); tx_unfold; [|done].
  destruct (decide (length _ ≠ length seatIds)); tx_unfold; done.
Qed.

Lemma free_or_expired_true now s :
  free_or_expired now s = true ↔ acquirable now s.
Proof.
  unfold free_or_expired, acquirable, expired.
  destruct s as [sh n st lu]; simpl.
  destruct st, lu as [t|]; simpl; try case_bool_decide; simpl; naive_solver.
Qed.

Lemma free_rows_complete env seatIds db :
  length (map_to_list (free_rows env seatIds db)) = length seatIds
  ↔ NoDup seatIds
    ∧ ∀ id, id ∈ seatIds →
        ∃ s, seats db !! id = Some s ∧ acquirable (now env) s.
Proof.
  unfold free_rows.
  rewrite (rowCount_eq_length (free_or_expired (now env))).
  by setoid_rewrite free_or_expired_true.
Qed.

Lemma selected_rows_not_locked {A} (P : string → A → bool)
    (ids : list string) (m : gmap string A) (locked : gset string) :
  (∀ k r, P k r = true → k ∈ ids) →
  (∀ id, id ∈ ids → id ∉ locked) →
  dom (select_where P m) ## locked.
Proof.
  intros HP Hfree k Hk Hl.
  apply elem_of_dom_select_where in Hk as (r & _ & Hr).
  by apply (Hfree k (HP k r Hr)).
Qed.

(** When the request is for distinct seats of the show that are all free or
    held past their deadline, the show exists and nobody else holds the
    rows, the attempt goes through. *)
Lemma attemptBooking_Ok_intro env showId seatIds userId db :
  NoDup seatIds →
  (∀ id, id ∈ seatIds →
     ∃ s, seats db !! id = Some s ∧ Seat.showId s = showId
          ∧ acquirable (now env) s) →
  is_Some (shows db !! showId) →
  (∀ id, id ∈ seatIds → id ∉ lockedByOthers env) →
  attemptBooking env showId seatIds userId db
  = (Ok (fresh (dom (bookings db)),
         confirmed_booking env showId seatIds userId),
     booked_db env showId seatIds userId db).
Proof.
  intros Hnd Hall [sh Hsh] Hfree. rewrite attemptBooking_cases. cbv zeta.
  rewrite decide_True.
  2:{ unfold lock_rows. apply (selected_rows_not_locked _ seatIds); [|done].
      intros k r [Hk _]%andb_true_iff. by apply bool_decide_eq_true in Hk. }
  rewrite decide_False.
  2:{ intros Hlen. apply Hlen, lock_rows_complete. split; [done|].
      intros id Hid. destruct (Hall id Hid) as (s & ? & ? & _). eauto. }
  rewrite decide_False; [by rewrite Hsh|].
  apply no_unavailable_rows. intros [id s] Hrow.
  apply unavailable_false. simpl.
  apply elem_of_map_to_list, lookup_select_where in Hrow as [Hs HP].
  apply andb_true_iff in HP as [Hid _]. apply bool_decide_eq_true in Hid.
  destruct (Hall id Hid) as (s' & Hs' & _ & Hacq).
  rewrite Hs in Hs'. by injection Hs' as ->.
Qed.

Lemma lockSeats_true_intro env seatIds until db :
  NoDup seatIds →
  (∀ id, id ∈ seatIds →
     ∃ s, seats db !! id = Some s ∧ acquirable (now env) s) →
  (∀ id, id ∈ seatIds → id ∉ lockedByOthers env) →
  lockSeats env seatIds until db
  = (Ok true,
     with_seats
       (update_where (λ id _, any_of seatIds id)
          (set_seat PENDING (Some until))) db).
Proof.
  intros Hnd Hall Hfree. rewrite lockSeats_cases.
  rewrite decide_True.
  2:{ unfold free_rows. apply (selected_rows_not_locked _ seatIds); [|done].
      intros k r [Hk _]%andb_true_iff. by apply bool_decide_eq_true in Hk. }
  rewrite decide_False; [done|].
  intros Hlen. by apply Hlen, free_rows_complete.
Qed.

(** ** C5: a lapsed hold does not block a new attempt *)

(** C5. When every requested seat of the show is AVAILABLE, or PENDING with
    [lockedUntil] in the past, and no other transaction holds their rows,
    [attemptBooking] takes them (they end BOOKED in a CONFIRMED booking) and
    [lockSeats] takes them (it returns true and they end PENDING until the
    new deadline), although no sweep has reset the lapsed holds. *)
Theorem lapsed_hold_is_acquirable env showId seatIds userId until db :
  NoDup seatIds →
  (∀ id, id ∈ seatIds →
     ∃ s, seats db !! id = Some s ∧ Seat.showId s = showId
          ∧ acquirable (now env) s) →
  is_Some (shows db !! showId) →
  (∀ id, id ∈ seatIds → id ∉ lockedByOthers env) →
  (∃ bid b,
     (attemptBooking env showId seatIds userId db).1 = Ok (bid, b)
     ∧ Booking.status b = CONFIRMED
     ∧ Booking.seatIds b = seatIds
     ∧ ∀ id, id ∈ seatIds →
         ∃ s, seats (attemptBooking env showId seatIds userId db).2 !! id
                = Some s
              ∧ Seat.status s = BOOKED)
  ∧ (lockSeats env seatIds until db).1 = Ok true
  ∧ ∀ id, id ∈ seatIds →
      ∃ s, seats (lockSeats env seatIds until db).2 !! id = Some s
           ∧ Seat.status s = PENDING ∧ Seat.lockedUntil s = Some until.
Proof.
  intros Hnd Hall Hshow Hfree.
  rewrite attemptBooking_Ok_intro, lockSeats_true_intro; try done.
  2:{ intros id Hid. destruct (Hall id Hid) as (s & ? & _ & ?). eauto. }
  cbn [fst snd booked_db with_seats seats].
  assert (Hrow : ∀ st lu id, id ∈ seatIds →
    ∃ s, update_where (λ id _, any_of seatIds id) (set_seat st lu) (seats db)
           !! id = Some s
         ∧ Seat.status s = st ∧ Seat.lockedUntil s = lu).
  { intros st lu id Hid. destruct (Hall id Hid) as (s & Hs & _).
    exists (set_seat st lu s). split; [|done].
    rewrite lookup_update_where, Hs. simpl.
    unfold any_of. by rewrite bool_decide_eq_true_2. }
  split; [|split; [done|]].
  - eexists _, _. split; [done|]. split; [done|]. split; [done|].
    intros id Hid. destruct (Hrow BOOKED None id Hid) as (s & ? & ? & _).
    eauto.
  - intros id Hid. by apply Hrow.
Qed.

Lemma lapsed_hold_is_acquirable_witness :
  (∃ bid b,
     (attemptBooking (quiet 1000) "show1" ["s2"] None sampleDb).1 = Ok (bid, b)
     ∧ Booking.status b = CONFIRMED
     ∧ Booking.seatIds b = ["s2"]
     ∧ ∀ id, id ∈ ["s2"] →
         ∃ s, seats (attemptBooking (quiet 1000) "show1" ["s2"] None sampleDb).2
                !! id = Some s
              ∧ Seat.status s = BOOKED)
  ∧ (lockSeats (quiet 1000) ["s2"] 2000 sampleDb).1 = Ok true
  ∧ ∀ id, id ∈ ["s2"] →
      ∃ s, seats (lockSeats (quiet 1000) ["s2"] 2000 sampleDb).2 !! id = Some s
           ∧ Seat.status s = PENDING ∧ Seat.lockedUntil s = Some 2000.
Proof.
  apply (lapsed_hold_is_acquirable (quiet 1000) "show1" ["s2"] None 2000 sampleDb).
  - apply NoDup_singleton.
  - intros id ->%list_elem_of_singleton.
    exists (Seat.mk "show1" 2 PENDING (Some 500)).
    split; [vm_compute; reflexivity|]. split; [reflexivity|].
    right. split; [reflexivity|]. exists 500. split; [reflexivity|simpl; lia].
  - exists (Show.mk "Concert" 100000 3 2 0). vm_compute; reflexivity.
  - intros id _. simpl. apply not_elem_of_empty.
Defined.

(** ** C7: explicit release *)

Lemma sql_any_cases `{ArrayIn} (seatIds : list string) :
  (∃ e, sql_any seatIds = inl e
        ∧ (e = SYNTAX_ERROR ∨ e = INVALID_TEXT_REPRESENTATION
           ∨ e = WRONG_OBJECT_TYPE))
  ∨ (∃ x ids, seatIds = [x] ∧ array_in x = Some ids
              ∧ sql_any seatIds = inr ids).
Proof.
  destruct seatIds as [|x [|y l]]; simpl.
  - left. eauto.
  - destruct (array_in x) as [ids|] eqn:E; [right|left]; eauto 7.
  - left. eauto 7.
Qed.

(** A list that is not one array literal, as every list of seat ids of this
    program is, has no array behind it. *)
Lemma sql_any_ordinary `{ArrayIn} (seatIds : list string) :
  (∀ x, seatIds = [x] → array_in x = None) →
  ∃ e, sql_any seatIds = inl e.
Proof.
  intros Hord.
  destruct (sql_any_cases seatIds)
    as [(e & -> & _)|(x & ids & Hx & Hsome & _)].
  - eauto.
  - rewrite (Hord x Hx) in Hsome. done.
Qed.

Lemma unlockSeats_throw `{ArrayIn} (seatIds : list string) (db : Database) e :
  sql_any seatIds = inl e → unlockSeats seatIds db = (Throw e, db).
Proof. intros E. unfold unlockSeats. by rewrite E. Qed.

(** C7. [unlockSeats] does not release a held seat it is asked to release.
    For a list of seat ids that is not one array literal (two ids or more,
    or one id that the server does not read as an array) the call throws
    and the database is as before: every listed seat keeps its row, so that
    one that is PENDING stays PENDING, with its deadline. *)
Theorem unlockSeats_releases_nothing `{ArrayIn} (seatIds : list string)
    (db : Database) id s :
  (∀ x, seatIds = [x] → array_in x = None) →
  id ∈ seatIds → seats db !! id = Some s →
  (∃ e, unlockSeats seatIds db = (Throw e, db)
        ∧ (e = INVALID_TEXT_REPRESENTATION ∨ e = WRONG_OBJECT_TYPE))
  ∧ seats (unlockSeats seatIds db).2 !! id = Some s.
Proof.
  intros Hord Hin Hs.
  destruct (sql_any_cases seatIds)
    as [(e & E & He)|(x & ids & Hx & Hsome & _)].
  - rewrite (unlockSeats_throw _ _ _ E). split; [|done].
    exists e. split; [done|]. destruct He as [->|He]; [|done].
    destruct seatIds as [|x [|y l]]; [by apply not_elem_of_nil in Hin| |];
      simpl in E; [destruct (array_in x)|]; done.
  - rewrite (Hord x Hx) in Hsome. done.
Qed.

Lemma unlockSeats_releases_nothing_witness :
  (∃ e, @unlockSeats sampleArrays ["s1"; "s2"] sampleDb = (Throw e, sampleDb)
        ∧ (e = INVALID_TEXT_REPRESENTATION ∨ e = WRONG_OBJECT_TYPE))
  ∧ seats (@unlockSeats sampleArrays ["s1"; "s2"] sampleDb).2 !! "s2"
    = Some (Seat.mk "show1" 2 PENDING (Some 500)).
Proof.
  apply (@unlockSeats_releases_nothing sampleArrays ["s1"; "s2"] sampleDb
           "s2").
  - intros x [=].
  - set_solver.
  - reflexivity.
Defined.

(** The call at the two kinds of ordinary list, and at the one kind of list
    that is executed: a single string that the server reads as an array. The
    seats released are then the elements of that array. *)
Example unlockSeats_sample :
  @unlockSeats sampleArrays ["s1"; "s2"] sampleDb
  = (Throw WRONG_OBJECT_TYPE, sampleDb)
  ∧ @unlockSeats sampleArrays ["s2"] sampleDb
    = (Throw INVALID_TEXT_REPRESENTATION, sampleDb)
  ∧ (@unlockSeats sampleArrays ["{s2,s3}"] sampleDb).1 = Ok tt
  ∧ seats (@unlockSeats sampleArrays ["{s2,s3}"] sampleDb).2 !! "s2"
    = Some (Seat.mk "show1" 2 AVAILABLE None)
  ∧ seats (@unlockSeats sampleArrays ["{s2,s3}"] sampleDb).2 !! "s3"
    = Some (Seat.mk "show1" 3 BOOKED None).
Proof. split_and!; reflexivity. Qed.

(** ** C8: the sweep over lapsed holds *)

Lemma pending_expired_true now s :
  pending_expired now s = true
  ↔ Seat.status s = PENDING ∧ ∃ t, Seat.lockedUntil s = Some t ∧ t < now.
Proof.
  unfold pending_expired, expired. destruct s as [sh n st lu]; simpl.
  destruct st, lu as [t|]; simpl; try case_bool_decide; simpl; naive_solver.
Qed.

Lemma elem_of_lapsed now db id :
  id ∈ lapsed now db
  ↔ ∃ s, seats db !! id = Some s ∧ Seat.status s = PENDING
         ∧ ∃ t, Seat.lockedUntil s = Some t ∧ t < now.
Proof.
  unfold lapsed. rewrite elem_of_dom. unfold is_Some.
  setoid_rewrite map_lookup_filter_Some. unfold lapsed_hold. simpl.
  split; intros (s & Hs & Hp & Hl); exists s; (split; [done|split; [done|]]).
  - destruct (Seat.lockedUntil s) as [t|]; [eauto|done].
  - by destruct Hl as (t & -> & ?).
Qed.

Lemma releaseExpiredLocks_lookup env db id :
  seats (releaseExpiredLocks env db).2 !! id
  = (λ s, if pending_expired (now env) s
          then set_seat AVAILABLE None s else s) <$> seats db !! id.
Proof. unfold releaseExpiredLocks. simpl. by rewrite lookup_update_where. Qed.

(** C8. [releaseExpiredLocks] resets to AVAILABLE, with no deadline, every
    seat that is PENDING with [lockedUntil] before now, keeps every other
    seat row, the shows and the bookings as they are, and returns the number
    of seats it reset; run again at once on the result it returns 0 and
    changes nothing. *)
Theorem releaseExpiredLocks_sweep (env : Env) (db : Database) :
  let r := releaseExpiredLocks env db in
  (∀ id s, seats db !! id = Some s → id ∈ lapsed (now env) db →
     seats r.2 !! id = Some (set_seat AVAILABLE None s))
  ∧ (∀ id, id ∉ lapsed (now env) db → seats r.2 !! id = seats db !! id)
  ∧ shows r.2 = shows db
  ∧ bookings r.2 = bookings db
  ∧ r.1 = size (lapsed (now env) db)
  ∧ releaseExpiredLocks env r.2 = (0%nat, r.2).
Proof.
  intros r. subst r.
  split; [|split; [|split; [done|split; [done|split]]]].
  - intros id s Hs Hl. rewrite releaseExpiredLocks_lookup, Hs. simpl.
    apply elem_of_lapsed in Hl as (s' & Hs' & Hp).
    rewrite Hs in Hs'. injection Hs' as <-.
    apply pending_expired_true in Hp. by rewrite Hp.
  - intros id Hl. rewrite releaseExpiredLocks_lookup.
    destruct (seats db !! id) as [s|] eqn:Hs; [|done]. simpl.
    destruct (pending_expired (now env) s) eqn:Hp; [|done].
    exfalso. apply Hl, elem_of_lapsed. exists s. split; [done|].
    by apply pending_expired_true.
  - unfold releaseExpiredLocks. cbn [fst].
    rewrite rowCount_select_where. f_equal. apply set_eq. intros id.
    rewrite elem_of_lapsed, elem_of_dom_select_where.
    by setoid_rewrite pending_expired_true.
  - assert (Hnone : ∀ id s,
      seats (releaseExpiredLocks env db).2 !! id = Some s →
      pending_expired (now env) s = false).
    { intros id s. rewrite releaseExpiredLocks_lookup.
      destruct (seats db !! id) as [s0|]; [|done]. simpl. intros [= <-].
      destruct (pending_expired (now env) s0) eqn:Hp; done. }
    unfold releaseExpiredLocks at 1. f_equal.
    + rewrite select_where_none; [by rewrite map_to_list_empty|].
      intros id s. apply Hnone.
    + destruct (releaseExpiredLocks env db).2 as [sh se bk] eqn:E.
      unfold with_seats. simpl in *. f_equal.
      apply update_where_none. intros id s. apply Hnone.
Qed.

(** ** C6: the deadline is set exactly on the held seats *)

Lemma seat_inv_set_PENDING until s : seat_inv (set_seat PENDING (Some until) s).
Proof. unfold seat_inv. simpl. split; eauto. Qed.

Lemma seat_inv_set_AVAILABLE s : seat_inv (set_seat AVAILABLE None s).
Proof. unfold seat_inv. simpl. split; [by intros [? ?]|done]. Qed.

Lemma seat_inv_set_BOOKED s : seat_inv (set_seat BOOKED None s).
Proof. unfold seat_inv. simpl. split; [by intros [? ?]|done]. Qed.

Create HintDb seats.
#[local] Hint Resolve seat_inv_set_PENDING seat_inv_set_AVAILABLE
  seat_inv_set_BOOKED : seats.

(** An UPDATE that writes rows satisfying the invariant preserves it. *)
Lemma seats_inv_update_where P f db :
  (∀ s, seat_inv (f s)) →
  seats_inv db → seats_inv (with_seats (update_where P f) db).
Proof.
  intros Hf Hinv id s. simpl. rewrite lookup_update_where.
  destruct (seats db !! id) as [s0|] eqn:Hs0; [|done]. simpl. intros [= <-].
  destruct (P id s0); [apply Hf|by eapply Hinv].
Qed.

Lemma seatValues_spec showId count s :
  s ∈ seatValues showId count →
  Seat.showId s = showId ∧ Seat.status s = AVAILABLE
  ∧ Seat.lockedUntil s = None.
Proof.
  unfold seatValues. intros (i & -> & _)%list_elem_of_fmap. done.
Qed.

(** The seat table after [createSeats]: the old rows, and new rows taken
    from [seatValues] under ids that were not in use. *)
Lemma createSeats_lookup showId count db id s :
  seats (createSeats showId count db).2 !! id = Some s →
  seats db !! id = Some s
  ∨ (seats db !! id = None ∧ s ∈ seatValues showId count
     ∧ is_Some (shows db !! showId)).
Proof.
  unfold createSeats.
  destruct (seatValues showId count) as [|v vs] eqn:Ev; [by left|].
  destruct (shows db !! showId) as [sh|]; [|by left].
  cbn [snd with_seats seats]. rewrite <- Ev. clear Ev.
  intros [Hnew|[_ Hold]]%lookup_union_Some_raw; [|by left].
  right. apply elem_of_list_to_map_2 in Hnew.
  pose proof Hnew as Hid%elem_of_zip_l.
  pose proof Hnew as Hv%elem_of_zip_r.
  split; [|by eauto].
  apply fresh_list_is_fresh in Hid. by apply not_elem_of_dom.
Qed.

(** C6. On a seat table in which [lockedUntil] is set exactly on the
    PENDING seats, each of [lockSeats], [unlockSeats], [markSeatsAsBooked],
    [releaseExpiredLocks], [attemptBooking] and [createSeats] leaves a table
    with the same property, whatever its arguments and its outcome. *)
Theorem seat_invariant_preserved `{ArrayIn} (db : Database) :
  seats_inv db →
  (∀ env seatIds until, seats_inv (lockSeats env seatIds until db).2)
  ∧ (∀ seatIds, seats_inv (unlockSeats seatIds db).2)
  ∧ (∀ seatIds, seats_inv (markSeatsAsBooked seatIds db).2)
  ∧ (∀ env, seats_inv (releaseExpiredLocks env db).2)
  ∧ (∀ env showId seatIds userId,
       seats_inv (attemptBooking env showId seatIds userId db).2)
  ∧ (∀ showId count, seats_inv (createSeats showId count db).2).
Proof.
  intros Hinv. split; [|split; [|split; [|split; [|split]]]].
  - intros env seatIds until. rewrite lockSeats_cases.
    repeat case_match; simpl; try done.
    apply seats_inv_update_where; auto with seats.
  - intros seatIds. unfold unlockSeats.
    destruct (sql_any seatIds); [done|].
    apply seats_inv_update_where; auto with seats.
  - intros seatIds. unfold markSeatsAsBooked.
    destruct (sql_any seatIds); [done|].
    apply seats_inv_update_where; auto with seats.
  - intros env. apply seats_inv_update_where; auto with seats.
  - intros env showId seatIds userId. rewrite attemptBooking_cases. cbv zeta.
    repeat case_match; simpl; try done.
    intros id s. apply (seats_inv_update_where _ _ db); auto with seats.
  - intros showId count id s [Hold|(_ & Hnew & _)]%createSeats_lookup.
    + by eapply Hinv.
    + apply seatValues_spec in Hnew as (_ & Hst & Hlu).
      unfold seat_inv. rewrite Hst, Hlu. split; [by intros [? ?]|done].
Qed.

Lemma seat_invariant_preserved_witness :
  (∀ env seatIds until, seats_inv (lockSeats env seatIds until sampleDb).2)
  ∧ (∀ seatIds, seats_inv (@unlockSeats sampleArrays seatIds sampleDb).2)
  ∧ (∀ seatIds, seats_inv (@markSeatsAsBooked sampleArrays seatIds sampleDb).2)
  ∧ (∀ env, seats_inv (releaseExpiredLocks env sampleDb).2)
  ∧ (∀ env showId seatIds userId,
       seats_inv (attemptBooking env showId seatIds userId sampleDb).2)
  ∧ (∀ showId count, seats_inv (createSeats showId count sampleDb).2).
Proof.
  apply (@seat_invariant_preserved sampleArrays).
  intros id s Hs. unfold sampleDb in Hs. simpl in Hs.
  destruct (decide (id = "s1")) as [->|?];
    [simplify_map_eq; split; [by intros [? ?]|done]|].
  destruct (decide (id = "s2")) as [->|?];
    [simplify_map_eq; split; eauto|].
  destruct (decide (id = "s3")) as [->|?];
    [simplify_map_eq; split; [by intros [? ?]|done]|].
  by simplify_map_eq.
Defined.

(** ** C9: the sweep over overdue pending bookings *)

(** [fail] throws, and changes nothing, for a booking whose seat list is not
    one array literal. *)
Lemma fail_throws `{ArrayIn} k db b :
  bookings db !! k = Some b →
  (∀ x, Booking.seatIds b = [x] → array_in x = None) →
  ∃ e, fail k db = (Throw e, db).
Proof.
  intros Hb Hord. unfold fail, getBookingById. rewrite Hb.
  destruct (sql_any_ordinary _ Hord) as [e E].
  rewrite (unlockSeats_throw _ _ _ E). eauto.
Qed.

Lemma fail_missing `{ArrayIn} k db :
  bookings db !! k = None → fail k db = (Ok tt, db).
Proof. intros Hb. unfold fail, getBookingById. by rewrite Hb. Qed.

Lemma fail_all_unchanged `{ArrayIn} rows db :
  (∀ bid b x, bookings db !! bid = Some b → Booking.seatIds b = [x] →
     array_in x = None) →
  fail_all rows db = db.
Proof.
  intros Hord. induction rows as [|[k b0] rows IH]; [done|].
  unfold fail_all in *. cbn [foldl fst].
  destruct (bookings db !! k) as [b|] eqn:Hb.
  - destruct (fail_throws k db b Hb (λ x, Hord k b x Hb)) as [e ->].
    exact IH.
  - rewrite (fail_missing k db Hb). exact IH.
Qed.

Lemma booking_expired_true now b :
  booking_expired now b = true
  ↔ Booking.status b = BK_PENDING
    ∧ ∃ t, Booking.expiresAt b = Some t ∧ t < now.
Proof.
  unfold booking_expired, expired. destruct b as [sh u ids st c ex]; simpl.
  destruct st, ex as [t|]; simpl; try case_bool_decide; simpl; naive_solver.
Qed.

(** C9. The sweep does not fail an overdue booking. On a database whose
    bookings list seat ids (no seat list is one array literal), every booking
    that is PENDING with its deadline in the past is found by
    [getExpiredPendingBookings], [fail] throws on it in [unlockSeats], and
    the sweep leaves the database as it was: the booking is still PENDING
    and its seats are not released. *)
Theorem sweep_leaves_overdue_bookings `{ArrayIn} env db :
  (∀ bid b x, bookings db !! bid = Some b → Booking.seatIds b = [x] →
     array_in x = None) →
  reapExpiredBookings env db = db
  ∧ ∀ bid b, bookings db !! bid = Some b →
      Booking.status b = BK_PENDING →
      (∃ t, Booking.expiresAt b = Some t ∧ t < now env) →
      (bid, b) ∈ getExpiredPendingBookings env db
      ∧ ∃ e, fail bid db = (Throw e, db).
Proof.
  intros Hord. split.
  - unfold reapExpiredBookings. by apply fail_all_unchanged.
  - intros bid b Hb Hst Hex. split.
    + unfold getExpiredPendingBookings.
      apply elem_of_map_to_list, lookup_select_where. split; [done|].
      by apply booking_expired_true.
    + apply (fail_throws bid db b Hb (λ x, Hord bid b x Hb)).
Qed.

Lemma sweep_leaves_overdue_bookings_witness :
  @reapExpiredBookings sampleArrays (quiet 200000) heldDb = heldDb
  ∧ ∀ bid b, bookings heldDb !! bid = Some b →
      Booking.status b = BK_PENDING →
      (∃ t, Booking.expiresAt b = Some t ∧ t < now (quiet 200000)) →
      (bid, b) ∈ getExpiredPendingBookings (quiet 200000) heldDb
      ∧ ∃ e, @fail sampleArrays bid heldDb = (Throw e, heldDb).
Proof.
  apply (@sweep_leaves_overdue_bookings sampleArrays (quiet 200000) heldDb).
  intros bid b x Hb Hx.
  change (bookings heldDb) with
    ({[ "0" := Booking.mk "show1" (Some "u1") ["s1"; "s2"] BK_PENDING 400
                 (Some 120400) ]} : gmap string Booking.t) in Hb.
  apply lookup_singleton_Some in Hb as [_ <-]. discriminate Hx.
Defined.

(** The sweep at time 200000 over [heldDb]: the booking made at time 400 is
    80 seconds overdue. What C9 states does not hold there: the booking and
    its two seats are PENDING after the sweep as they were before it. *)
Example sweep_leaves_booking_pending :
  let db' := @reapExpiredBookings sampleArrays (quiet 200000) heldDb in
  ¬ @sweep_frees_seats sampleArrays (quiet 200000) heldDb
  ∧ bookings db' !! "0"
    = Some (Booking.mk "show1" (Some "u1") ["s1"; "s2"] BK_PENDING 400
              (Some 120400))
  ∧ seats db' !! "s1" = Some (Seat.mk "show1" 1 PENDING (Some 500000))
  ∧ seats db' !! "s2" = Some (Seat.mk "show1" 2 PENDING (Some 500000)).
Proof.
  split; [|by vm_compute].
  intros Hfree.
  destruct (Hfree "0" (Booking.mk "show1" (Some "u1") ["s1"; "s2"] BK_PENDING
                         400 (Some 120400)))
    as (b' & Hb' & Hst & _).
  - vm_compute; reflexivity.
  - reflexivity.
  - exists 120400. split; [reflexivity|simpl; lia].
  - vm_compute in Hb'. injection Hb' as <-. discriminate.
Qed.

(** ** C3: the cached counter of a show *)

Lemma elem_of_bookedSeats showId db id :
  id ∈ bookedSeats showId db
  ↔ ∃ s, seats db !! id = Some s ∧ Seat.showId s = showId
         ∧ Seat.status s = BOOKED.
Proof.
  unfold bookedSeats. rewrite elem_of_dom_select_where.
  split; intros (s & Hs & H); exists s; (split; [done|]).
  - apply andb_true_iff in H as [H1 H2].
    by apply bool_decide_eq_true in H1, H2.
  - destruct H as [H1 H2]. apply andb_true_iff.
    by split; apply bool_decide_eq_true.
Qed.

(** Two seat tables with the same BOOKED seats of a show. *)
Lemma bookedSeats_ext showId db db' :
  (∀ id, (∃ s, seats db' !! id = Some s ∧ Seat.showId s = showId
               ∧ Seat.status s = BOOKED)
         ↔ (∃ s, seats db !! id = Some s ∧ Seat.showId s = showId
                 ∧ Seat.status s = BOOKED)) →
  bookedSeats showId db' = bookedSeats showId db.
Proof.
  intros H. apply set_eq. intros id. by rewrite !elem_of_bookedSeats.
Qed.

(** An UPDATE that sets a status other than BOOKED on rows that are not
    BOOKED does not change the BOOKED seats of any show. *)
Lemma bookedSeats_update_unbooked P st lu showId db :
  st ≠ BOOKED →
  (∀ id s, seats db !! id = Some s → P id s = true → Seat.status s ≠ BOOKED) →
  bookedSeats showId (with_seats (update_where P (set_seat st lu)) db)
  = bookedSeats showId db.
Proof.
  intros Hst HP. apply bookedSeats_ext. intros id. simpl.
  rewrite lookup_update_where.
  destruct (seats db !! id) as [s|] eqn:Hs; simpl; [|naive_solver].
  destruct (P id s) eqn:E.
  - pose proof (HP id s Hs E). split.
    + intros (s' & [= <-] & _ & Hb). done.
    + intros (s' & [= <-] & _ & Hb). done.
  - done.
Qed.

(** The UPDATE of [attemptBooking] adds the requested seats to the BOOKED
    seats of their show and leaves those of the other shows alone. *)
Lemma bookedSeats_book seatIds showId sid db :
  (∀ id, id ∈ seatIds →
     ∃ s, seats db !! id = Some s ∧ Seat.showId s = showId) →
  bookedSeats sid
    (with_seats (update_where (λ id _, any_of seatIds id)
                   (set_seat BOOKED None)) db)
  = if decide (sid = showId)
    then bookedSeats sid db ∪ list_to_set seatIds
    else bookedSeats sid db.
Proof.
  intros Hall. apply set_eq. intros id.
  assert (Hl : id ∈ bookedSeats sid
                 (with_seats (update_where (λ id _, any_of seatIds id)
                                (set_seat BOOKED None)) db)
          ↔ id ∈ bookedSeats sid db ∨ (sid = showId ∧ id ∈ seatIds)).
  { rewrite !elem_of_bookedSeats. simpl. rewrite lookup_update_where.
    unfold any_of. destruct (decide (id ∈ seatIds)) as [Hin|Hnin].
    - destruct (Hall id Hin) as (s & Hs & Hsh). rewrite Hs. simpl.
      rewrite bool_decide_eq_true_2 by done. split.
      + intros (s' & [= <-] & Hsid & _). simpl in Hsid. right.
        split; [congruence|done].
      + intros [(s' & [= <-] & Hsid & _)|[-> _]];
          exists (set_seat BOOKED None s); done.
    - destruct (seats db !! id) as [s|]; simpl.
      + rewrite bool_decide_eq_false_2 by done. naive_solver.
      + naive_solver. }
  rewrite Hl. destruct (decide (sid = showId)) as [->|Hne].
  - rewrite elem_of_union, elem_of_list_to_set. naive_solver.
  - naive_solver.
Qed.

Lemma counter_ok_same_seats db db' :
  shows db' = shows db →
  (∀ sid, bookedSeats sid db' = bookedSeats sid db) →
  counter_ok db → counter_ok db'.
Proof.
  intros Hsh Hbk Hok id sh. rewrite Hsh, Hbk. apply Hok.
Qed.

Lemma seats_reference_shows_update P f db :
  (∀ s, Seat.showId (f s) = Seat.showId s) →
  seats_reference_shows db →
  seats_reference_shows (with_seats (update_where P f) db).
Proof.
  intros Hf Hfk id s. simpl. rewrite lookup_update_where.
  destruct (seats db !! id) as [s0|] eqn:Hs0; [|done]. simpl. intros [= <-].
  destruct (P id s0); [rewrite Hf|]; by eapply Hfk.
Qed.

(** What a booking that went through says about the request and the state
    it was made in. *)
Lemma attemptBooking_Ok_inv env showId seatIds userId db r db' :
  attemptBooking env showId seatIds userId db = (Ok r, db') →
  dom (lock_rows showId seatIds db) ## lockedByOthers env
  ∧ NoDup seatIds
  ∧ (∀ id, id ∈ seatIds →
       ∃ s, seats db !! id = Some s ∧ Seat.showId s = showId
            ∧ acquirable (now env) s)
  ∧ is_Some (shows db !! showId)
  ∧ r = (fresh (dom (bookings db)), confirmed_booking env showId seatIds userId)
  ∧ db' = booked_db env showId seatIds userId db.
Proof.
  rewrite attemptBooking_cases. cbv zeta.
  destruct (decide (dom _ ## _)) as [Hl|]; [|done].
  destruct (decide (length _ ≠ length seatIds)) as [|Hlen]; [done|].
  destruct (decide (0 < _)%nat) as [|Hun]; [done|].
  destruct (shows db !! showId) as [sh|] eqn:Hsh; [|done].
  intros [= <- <-]. apply dec_stable in Hlen.
  apply lock_rows_complete in Hlen as [Hnd Hall].
  split; [done|]. split; [done|]. split; [|by eauto].
  intros id Hid. destruct (Hall id Hid) as (s & Hs & Hshow).
  exists s. split; [done|]. split; [done|].
  apply (unavailable_false (now env) (id, s)).
  eapply no_unavailable_rows; [exact Hun|].
  apply elem_of_map_to_list, lookup_select_where. split; [done|].
  apply andb_true_iff. unfold any_of.
  by split; apply bool_decide_eq_true.
Qed.

Lemma acquirable_not_BOOKED now s : acquirable now s → Seat.status s ≠ BOOKED.
Proof. intros [H|[H _]]; rewrite H; done. Qed.

Lemma lockSeats_consistent env seatIds until db :
  consistent db → consistent (lockSeats env seatIds until db).2.
Proof.
  intros [Hok Hfk]. rewrite lockSeats_cases.
  destruct (decide (dom _ ## _)); [|done].
  destruct (decide (length _ ≠ length seatIds)) as [|Hlen]; [done|].
  apply dec_stable in Hlen. apply free_rows_complete in Hlen as [_ Hall].
  cbn [snd]. split.
  - apply (counter_ok_same_seats db); [done| |done].
    intros sid. apply bookedSeats_update_unbooked; [done|].
    intros id s Hs Hin. apply bool_decide_eq_true in Hin.
    destruct (Hall id Hin) as (s' & Hs' & Hacq).
    rewrite Hs in Hs'. injection Hs' as <-.
    by eapply acquirable_not_BOOKED.
  - by apply seats_reference_shows_update.
Qed.

Lemma unlockSeats_consistent `{ArrayIn} seatIds db :
  consistent db → consistent (unlockSeats seatIds db).2.
Proof.
  intros [Hok Hfk]. unfold unlockSeats.
  destruct (sql_any seatIds) as [e|ids]; [by split|]. split.
  - apply (counter_ok_same_seats db); [done| |done].
    intros sid. apply bookedSeats_update_unbooked; [done|].
    intros id s _ [_ Hp]%andb_true_iff.
    apply bool_decide_eq_true in Hp. by rewrite Hp.
  - by apply seats_reference_shows_update.
Qed.

Lemma releaseExpiredLocks_consistent env db :
  consistent db → consistent (releaseExpiredLocks env db).2.
Proof.
  intros [Hok Hfk]. split.
  - apply (counter_ok_same_seats db); [done| |done].
    intros sid. apply bookedSeats_update_unbooked; [done|].
    intros id s _ [Hp _]%pending_expired_true. by rewrite Hp.
  - by apply seats_reference_shows_update.
Qed.

Lemma attemptBooking_consistent env showId seatIds userId db :
  consistent db → consistent (attemptBooking env showId seatIds userId db).2.
Proof.
  intros [Hok Hfk].
  destruct (attemptBooking env showId seatIds userId db) as [[r|e] db'] eqn:E.
  2:{ apply attemptBooking_Throw_inv in E as ->. by split. }
  apply attemptBooking_Ok_inv in E as (_ & Hnd & Hall & _ & _ & ->).
  cbn [snd]. split.
  - intros sid sh. cbn [booked_db shows]. rewrite lookup_update_where.
    destruct (shows db !! sid) as [sh0|] eqn:Hsh0; [|done].
    cbn [fmap option_fmap option_map]. intros [= <-].
    change (bookedSeats sid (booked_db env showId seatIds userId db))
      with (bookedSeats sid
              (with_seats (update_where (λ id _, any_of seatIds id)
                             (set_seat BOOKED None)) db)).
    rewrite (bookedSeats_book seatIds showId).
    2:{ intros id Hid. destruct (Hall id Hid) as (s & ? & ? & _). eauto. }
    pose proof (Hok sid sh0 Hsh0) as Hc.
    destruct (decide (sid = showId)) as [->|Hne].
    + rewrite bool_decide_eq_true_2 by done.
      rewrite size_union, size_list_to_set by
        (try done; intros id Hb Hid; apply elem_of_list_to_set in Hid;
         apply elem_of_bookedSeats in Hb as (s & Hs & _ & Hb);
         destruct (Hall id Hid) as (s' & Hs' & _ & Hacq);
         rewrite Hs in Hs'; injection Hs' as <-;
         by apply acquirable_not_BOOKED in Hacq).
      unfold add_available. simpl. lia.
    + rewrite bool_decide_eq_false_2 by done. done.
  - intros id s. cbn [booked_db seats shows].
    rewrite lookup_update_where.
    destruct (seats db !! id) as [s0|] eqn:Hs0; [|done].
    cbn [fmap option_fmap option_map]. intros [= <-].
    rewrite lookup_update_where.
    assert (Hsame : Seat.showId (if any_of seatIds id
                                 then set_seat BOOKED None s0 else s0)
                    = Seat.showId s0) by (by destruct (any_of seatIds id)).
    rewrite Hsame. destruct (Hfk id s0 Hs0) as [sh ->]. by eexists.
Qed.

Lemma createSeats_keeps showId count db id s :
  seats db !! id = Some s → seats (createSeats showId count db).2 !! id = Some s.
Proof.
  intros Hs. unfold createSeats.
  destruct (seatValues showId count) as [|v vs] eqn:Ev; [done|].
  destruct (shows db !! showId); [|done].
  cbn [snd with_seats seats]. rewrite lookup_union_r; [done|].
  apply not_elem_of_list_to_map_1.
  rewrite fst_zip by (by rewrite length_fresh_list).
  intros Hin%fresh_list_is_fresh. apply Hin, elem_of_dom. by eexists.
Qed.

Lemma createSeats_shows showId count db :
  shows (createSeats showId count db).2 = shows db.
Proof. unfold createSeats. by repeat case_match. Qed.

Lemma createSeats_consistent showId count db :
  consistent db → consistent (createSeats showId count db).2.
Proof.
  intros [Hok Hfk]. split.
  - apply (counter_ok_same_seats db); [apply createSeats_shows| |done].
    intros sid. apply bookedSeats_ext. intros id. split.
    + intros (s & [Hs|(_ & Hnew & _)]%createSeats_lookup & Hsid & Hb); [eauto|].
      apply seatValues_spec in Hnew as (_ & Hst & _). congruence.
    + intros (s & Hs & ?). exists s. split; [|done].
      by apply createSeats_keeps.
  - intros id s [Hs|(_ & Hnew & Hshow)]%createSeats_lookup;
      rewrite createSeats_shows; [by eapply Hfk|].
    by apply seatValues_spec in Hnew as (-> & _).
Qed.

Lemma createShow_row env insertShow db :
  shows (createShow env insertShow db).2 !! fresh (dom (shows db))
  = Some (Show.mk (ins_name insertShow) (ins_startTime insertShow)
            (ins_totalSeats insertShow) (ins_totalSeats insertShow) (now env)).
Proof.
  unfold createShow.
  destruct (createSeats _ _ _) as [[rows|e] db2] eqn:E; cbn [snd];
    apply (f_equal snd) in E; cbn [snd] in E; rewrite <- E;
    rewrite createSeats_shows; cbn [with_shows shows];
    apply lookup_insert_eq.
Qed.

Lemma createShow_consistent env insertShow db :
  consistent db → consistent (createShow env insertShow db).2.
Proof.
  intros [Hok Hfk]. unfold createShow.
  set (id := fresh (dom (shows db))). set (show := Show.mk _ _ _ _ _).
  assert (Hfresh : shows db !! id = None)
    by apply not_elem_of_dom, is_fresh.
  assert (H1 : consistent (with_shows (insert id show) db)).
  { split.
    - intros k sh. cbn [with_shows shows].
      change (bookedSeats k (with_shows (insert id show) db))
        with (bookedSeats k db).
      destruct (decide (k = id)) as [->|Hne].
      + rewrite lookup_insert_eq. intros [= <-].
        assert (Hempty : bookedSeats id db = ∅).
        { apply set_eq. intros sid. rewrite elem_of_bookedSeats.
          split; [|by intros ?%not_elem_of_empty].
          intros (s & Hs & Hsid & _). destruct (Hfk sid s Hs) as [sh Hsh].
          congruence. }
        rewrite Hempty, size_empty. subst show. simpl. lia.
      + rewrite lookup_insert_ne by done. apply Hok.
    - intros sid s Hs. cbn [with_shows shows seats] in *.
      destruct (Hfk sid s Hs) as [sh Hsh].
      destruct (decide (Seat.showId s = id)) as [Heq|Hne].
      + rewrite Heq in Hsh. congruence.
      + rewrite lookup_insert_ne by done. by eexists. }
  pose proof (createSeats_consistent id (ins_totalSeats insertShow) _ H1) as H2.
  by destruct (createSeats _ _ _) as [[rows|e] db2].
Qed.

Lemma createBooking_consistent env insertBooking db :
  consistent db → consistent (createBooking env insertBooking db).2.
Proof.
  intros H. unfold createBooking. tx_unfold.
  destruct (shows db !! _); tx_unfold; done.
Qed.

Lemma updateBookingStatus_consistent id status db :
  consistent db → consistent (updateBookingStatus id status db).2.
Proof. done. Qed.

Lemma deleteShow_consistent id db :
  consistent db → consistent (deleteShow id db).2.
Proof.
  intros [Hok Hfk]. split.
  - intros k sh. cbn [deleteShow snd shows].
    intros [Hne Hk]%lookup_delete_Some.
    rewrite (Hok k sh Hk). do 3 f_equal.
    symmetry. apply bookedSeats_ext. intros sid. cbn [deleteShow snd seats].
    split.
    + intros (s & [Hs _]%map_lookup_filter_Some & ?). eauto.
    + intros (s & Hs & Hsid & Hb). exists s. split; [|done].
      apply map_lookup_filter_Some. split; [done|]. simpl. congruence.
  - intros sid s. cbn [deleteShow snd shows seats].
    intros [Hs Hne]%map_lookup_filter_Some. simpl in Hne.
    destruct (Hfk sid s Hs) as [sh Hsh]. exists sh.
    by rewrite lookup_delete_ne.
Qed.

Lemma committed_consistent `{ArrayIn} db db' :
  committed db db' → consistent db → consistent db'.
Proof.
  destruct 1; eauto using createShow_consistent, deleteShow_consistent,
    attemptBooking_consistent, lockSeats_consistent, unlockSeats_consistent,
    releaseExpiredLocks_consistent, createBooking_consistent,
    updateBookingStatus_consistent.
Qed.

Lemma emptyDatabase_consistent : consistent emptyDatabase.
Proof. split; intros id x Hx; simpl in Hx; by rewrite lookup_empty in Hx. Qed.

(** C3. In every state reached from the empty database by a sequence of
    committed operations (show creation and deletion, atomic bookings,
    [lockSeats] and [unlockSeats], the sweeps of the reaper and the booking
    rows they work on), each show has
    [availableSeats = totalSeats − number of its BOOKED seats]; each single
    operation keeps that equation when it commits; and the row [createShow]
    inserts has [availableSeats = totalSeats]. *)
Theorem counter_invariant `{ArrayIn} :
  (∀ db, rtc committed emptyDatabase db → counter_ok db)
  ∧ (∀ db db', consistent db → committed db db' → consistent db')
  ∧ (∀ env insertShow db,
       ∃ sh, shows (createShow env insertShow db).2 !! fresh (dom (shows db))
             = Some sh
           ∧ Show.availableSeats sh = Show.totalSeats sh
           ∧ Show.totalSeats sh = ins_totalSeats insertShow).
Proof.
  split; [|split].
  - intros db Hreach.
    assert (Hcons : consistent db); [|by destruct Hcons].
    revert db Hreach. apply (rtc_ind_r (λ d, consistent d)).
    + apply emptyDatabase_consistent.
    + intros y z _ Hstep Hy. by eapply committed_consistent.
  - intros db db' Hc Hstep. by eapply committed_consistent.
  - intros env insertShow db. eexists. split; [apply createShow_row|done].
Qed.

(** [markSeatsAsBooked] and [updateShowAvailableSeats] are the two halves
    of a deferred confirmation and not among the operations above. When the
    first is executed, on a string that the server reads as an array, it
    leaves the counter of the show behind until the second has run. *)
Example markSeatsAsBooked_leaves_counter :
  let db1 := (@markSeatsAsBooked sampleArrays ["{s2,s3}"] threeSeats).2 in
  counter_ok threeSeats
  ∧ ¬ counter_ok db1
  ∧ counter_ok (updateShowAvailableSeats "show1" (-2) db1).2.
Proof.
  split; [|split].
  - intros id sh Hsh. cbn [threeSeats shows] in Hsh.
    apply lookup_singleton_Some in Hsh as [<- <-]. vm_compute. reflexivity.
  - intros H.
    specialize (H "show1" (Show.mk "Concert" 100000 3 3 0) eq_refl).
    vm_compute in H. discriminate.
  - intros id sh Hsh.
    change (shows (updateShowAvailableSeats "show1" (-2)
                     (@markSeatsAsBooked sampleArrays ["{s2,s3}"]
                        threeSeats).2).2)
      with ({[ "show1" := Show.mk "Concert" 100000 3 1 0 ]}
              : gmap string Show.t) in Hsh.
    apply lookup_singleton_Some in Hsh as [<- <-]. vm_compute. reflexivity.
Qed.

(** ** C4: attempts that run at the same time *)

(** An attempt that is alone does its two halves in a row: that is
    [attemptBooking]. *)
Lemma attemptBooking_two_halves env showId seatIds userId db :
  attemptBooking env showId seatIds userId db
  = let rq := {| rq_showId := showId; rq_seatIds := seatIds;
                 rq_userId := userId |} in
    match attemptBooking_lock env rq {| cur := db; snapshot := None |} with
    | (Ok lockResult, c) =>
      let '(r, c') := attemptBooking_finish env rq lockResult c in
      (r, release c')
    | (Throw e, c) => (Throw e, release c)
    end.
Proof.
  unfold attemptBooking, attemptBooking_tx, attemptBooking_lock,
    attemptBooking_finish, lock_seats_of_show.
  tx_unfold.
  destruct (decide (dom _ ## _)); tx_unfold; [|done].
  by destruct (book_locked_seats _ _ _ _ _ _) as [[r|e] c'].
Qed.

Lemma elem_of_heldRows (inflight : gmap nat InFlight) id :
  id ∈ heldRows inflight
  ↔ ∃ k a, inflight !! k = Some a ∧ id ∈ (fl_lockResult a).*1.
Proof.
  unfold heldRows. rewrite elem_of_union_list. split.
  - intros (X & HX & Hid).
    apply list_elem_of_fmap in HX as (a & -> & Ha).
    apply list_elem_of_fmap in Ha as ([k a'] & -> & Hka).
    apply elem_of_map_to_list in Hka. apply elem_of_list_to_set in Hid.
    by exists k, a'.
  - intros (k & a & Hka & Hid).
    exists (list_to_set (fl_lockResult a).*1). split.
    + apply list_elem_of_fmap. exists a. split; [done|].
      apply list_elem_of_fmap. exists (k, a). split; [done|].
      by apply elem_of_map_to_list.
    + by apply elem_of_list_to_set.
Qed.

Lemma sys_lock_cases k t busy rq sys :
  sys_lock k t busy rq sys
  = let rows := lock_rows (rq_showId rq) (rq_seatIds rq) (sys_db sys) in
    if decide (dom rows ## heldRows (sys_inflight sys) ∪ busy)
    then {| sys_db := sys_db sys;
            sys_inflight := <[k := {| fl_request := rq;
                                      fl_lockResult := map_to_list rows |}]>
                              (sys_inflight sys);
            sys_returned := sys_returned sys |}
    else {| sys_db := sys_db sys;
            sys_inflight := sys_inflight sys;
            sys_returned := (rq, Throw SEATS_LOCKED) :: sys_returned sys |}.
Proof.
  unfold sys_lock, attemptBooking_lock, lock_seats_of_show, lock_rows.
  tx_unfold. destruct (decide (dom _ ## _)); tx_unfold; done.
Qed.

(** An attempt whose lock result is still what the lock query would return
    finishes as an [attemptBooking] that runs alone on the committed state. *)
Lemma sys_finish_cases k t sys a :
  sys_inflight sys !! k = Some a →
  fl_lockResult a
  = map_to_list (lock_rows (rq_showId (fl_request a))
                   (rq_seatIds (fl_request a)) (sys_db sys)) →
  sys_finish k t sys
  = let r := attemptBooking (quiet t) (rq_showId (fl_request a))
               (rq_seatIds (fl_request a)) (rq_userId (fl_request a))
               (sys_db sys) in
    {| sys_db := r.2;
       sys_inflight := delete k (sys_inflight sys);
       sys_returned := (fl_request a, r.1) :: sys_returned sys |}.
Proof.
  intros Hk Hrows. unfold sys_finish. rewrite Hk.
  rewrite attemptBooking_cases. cbv zeta.
  rewrite decide_True by (simpl; set_solver).
  unfold attemptBooking_finish, book_locked_seats. rewrite Hrows.
  tx_unfold.
  destruct (decide (length _ ≠ length _)); tx_unfold; [done|].
  destruct (decide (0 < _)%nat); tx_unfold; [done|].
  rewrite lookup_update_where.
  destruct (shows (sys_db sys) !! _) as [sh|]; tx_unfold; done.
Qed.

Lemma elem_of_rows_ids {A} (m : gmap string A) id :
  id ∈ (map_to_list m).*1 ↔ id ∈ dom m.
Proof.
  rewrite elem_of_dom, list_elem_of_fmap. split.
  - intros ([k r] & -> & Hkr). apply elem_of_map_to_list in Hkr. by eexists.
  - intros [r Hr]. exists (id, r). split; [done|].
    by apply elem_of_map_to_list.
Qed.

(** A booking made on seats that the lock query of another request does
    not select leaves the result of that query as it is. *)
Lemma lock_rows_booked_db env showId seatIds userId db showId' seatIds' :
  (∀ id, id ∈ seatIds → id ∉ dom (lock_rows showId' seatIds' db)) →
  (∀ id, id ∈ seatIds → is_Some (seats db !! id)) →
  lock_rows showId' seatIds' (booked_db env showId seatIds userId db)
  = lock_rows showId' seatIds' db.
Proof.
  intros Hout Hin. apply map_eq. intros id. apply option_eq. intros s.
  unfold lock_rows. rewrite !lookup_select_where.
  cbn [booked_db seats]. rewrite lookup_update_where.
  unfold any_of at 1.
  destruct (decide (id ∈ seatIds)) as [Hid|Hid].
  - rewrite bool_decide_eq_true_2 by done.
    destruct (Hin id Hid) as [s0 Hs0]. rewrite Hs0. simpl.
    assert (Hnot : ∀ s1, Seat.showId s1 = Seat.showId s0 →
              ¬ (any_of seatIds' id
                 && bool_decide (Seat.showId s1 = showId') = true)).
    { intros s1 Hsh HP. apply (Hout id Hid).
      apply elem_of_dom_select_where. exists s0. split; [done|].
      rewrite <- Hsh. exact HP. }
    split.
    + intros [[= <-] HP]. exfalso. by apply (Hnot (set_seat BOOKED None s0)).
    + intros [[= <-] HP]. exfalso. by apply (Hnot s0).
  - rewrite bool_decide_eq_false_2 by done.
    destruct (seats db !! id); simpl; naive_solver.
Qed.

Lemma confirmedSeats_cons rq r returned :
  confirmedSeats ((rq, r) :: returned)
  = match r with
    | Ok (_, b) => Booking.seatIds b
    | Throw _ => []
    end ++ confirmedSeats returned.
Proof. done. Qed.

Lemma confirmedCount_cons showId rq r returned :
  confirmedCount showId ((rq, r) :: returned)
  = ((if decide (rq_showId rq = showId)
      then match r with
           | Ok (_, b) => length (Booking.seatIds b)
           | Throw _ => 0
           end
      else 0) + confirmedCount showId returned)%nat.
Proof.
  unfold confirmedCount. cbn [List.filter snd fst].
  destruct (decide (rq_showId rq = showId)) as [Heq|Hne].
  - rewrite bool_decide_eq_true_2 by done.
    rewrite confirmedSeats_cons, length_app. by destruct r as [[? ?]|].
  - by rewrite bool_decide_eq_false_2.
Qed.

Lemma sys_inv_initial db0 : sys_inv db0 (initial db0).
Proof.
  split; simpl; try done.
  - intros id Hid. by apply elem_of_nil in Hid.
  - constructor.
  - intros sid. destruct (shows db0 !! sid) as [sh|]; [|done].
    simpl. f_equal. unfold confirmedCount. simpl. lia.
  - intros rq r Hin. by apply elem_of_nil in Hin.
  - intros rq bid b Hin. by apply elem_of_nil in Hin.
Qed.

Lemma sys_lock_inv db0 k t busy rq sys :
  sys_inflight sys !! k = None →
  sys_inv db0 sys → sys_inv db0 (sys_lock k t busy rq sys).
Proof.
  intros Hk [Hrows Hdisj Hbk Hnd Hcnt Hsh Hout Hbook].
  rewrite sys_lock_cases. cbv zeta.
  destruct (decide (dom _ ## _)) as [Hfree|Hheld].
  - split; cbn [sys_db sys_inflight sys_returned]; try done.
    + intros k' a [[<- <-]|[Hne Hk']]%lookup_insert_Some; [done|].
      by eapply Hrows.
    + intros k1 k2 a1 a2 id Hne
        [[<- <-]|[Hne1 Hk1]]%lookup_insert_Some
        [[<- <-]|[Hne2 Hk2]]%lookup_insert_Some; try done.
      * cbn [fl_lockResult]. rewrite elem_of_rows_ids. intros Hid Hid2.
        apply (Hfree id Hid), elem_of_union. left.
        apply elem_of_heldRows. by exists k2, a2.
      * cbn [fl_lockResult]. rewrite elem_of_rows_ids. intros Hid1 Hid.
        apply (Hfree id Hid), elem_of_union. left.
        apply elem_of_heldRows. by exists k1, a1.
      * by apply (Hdisj k1 k2).
  - split; cbn [sys_db sys_inflight sys_returned]; try done.
    + intros sid. rewrite Hcnt, confirmedCount_cons.
      by destruct (decide _).
    + intros rq' r [[= -> ->]|Hin]%elem_of_cons Hvalid.
      * right. by left.
      * by apply Hout.
    + intros rq' bid b [[=]|Hin]%elem_of_cons. by eapply Hbook.
Qed.

Lemma sys_finish_inv db0 k t sys :
  is_Some (sys_inflight sys !! k) →
  sys_inv db0 sys → sys_inv db0 (sys_finish k t sys).
Proof.
  intros [a Hk] [Hrows Hdisj Hbk Hnd Hcnt Hsh Hout Hbook].
  rewrite (sys_finish_cases k t sys a Hk (Hrows k a Hk)). cbv zeta.
  set (rq := fl_request a) in *.
  destruct (attemptBooking (quiet t) (rq_showId rq) (rq_seatIds rq)
              (rq_userId rq) (sys_db sys)) as [[r|e] db'] eqn:E.
  - (* the attempt commits *)
    apply attemptBooking_Ok_inv in E as (_ & Hnodup & Hall & Hshow & -> & ->).
    assert (Hmine : ∀ id, id ∈ rq_seatIds rq → id ∈ (fl_lockResult a).*1).
    { intros id Hid. rewrite (Hrows k a Hk), elem_of_rows_ids.
      destruct (Hall id Hid) as (s & Hs & Hsid & _).
      apply elem_of_dom_select_where. exists s. split; [done|].
      apply andb_true_iff. unfold any_of.
      by split; apply bool_decide_eq_true. }
    assert (Hfree : ∀ id, id ∈ rq_seatIds rq →
              id ∉ confirmedSeats (sys_returned sys)).
    { intros id Hid Hold. destruct (Hbk id Hold) as (s & Hs & Hb).
      destruct (Hall id Hid) as (s' & Hs' & _ & Hacq).
      rewrite Hs in Hs'. injection Hs' as <-.
      by apply acquirable_not_BOOKED in Hacq. }
    split; cbn [fst snd sys_db sys_inflight sys_returned].
    + intros k' a' [Hne Hk']%lookup_delete_Some.
      rewrite lock_rows_booked_db; [by apply (Hrows k')| |].
      * intros id Hid. rewrite <- elem_of_rows_ids, <- (Hrows k' a' Hk').
        apply (Hdisj k k' a a'); [done..|]. by apply Hmine.
      * intros id Hid. destruct (Hall id Hid) as (s & Hs & _). by eexists.
    + intros k1 k2 a1 a2 id Hne [_ Hk1]%lookup_delete_Some
        [_ Hk2]%lookup_delete_Some.
      by apply (Hdisj k1 k2).
    + intros id. rewrite confirmedSeats_cons. cbn [confirmed_booking Booking.seatIds].
      cbn [booked_db seats]. rewrite lookup_update_where. unfold any_of.
      intros [Hid|Hid]%elem_of_app.
      * destruct (Hall id Hid) as (s & Hs & _). rewrite Hs. simpl.
        rewrite bool_decide_eq_true_2 by done. by eexists.
      * destruct (Hbk id Hid) as (s & Hs & Hb). rewrite Hs. simpl.
        rewrite bool_decide_eq_false_2 by (intros ?; by eapply Hfree).
        by eexists.
    + rewrite confirmedSeats_cons. cbn [confirmed_booking Booking.seatIds].
      apply NoDup_app. split; [done|]. split; [apply Hfree|done].
    + intros sid. rewrite confirmedCount_cons.
      cbn [confirmed_booking Booking.seatIds booked_db shows].
      rewrite lookup_update_where. specialize (Hcnt sid).
      destruct (shows (sys_db sys) !! sid) as [sh|],
        (shows db0 !! sid) as [sh0|]; simpl in *; try done.
      injection Hcnt as Hcnt. f_equal.
      destruct (decide (rq_showId rq = sid)) as [Heq|Hne].
      * rewrite bool_decide_eq_true_2 by done. simpl. lia.
      * rewrite bool_decide_eq_false_2 by done. lia.
    + intros id. rewrite <- Hsh. cbn [booked_db seats].
      rewrite lookup_update_where.
      destruct (seats (sys_db sys) !! id) as [s|]; [|done]. simpl.
      by destruct (any_of _ _).
    + intros rq' r [[= -> ->]|Hin]%elem_of_cons Hvalid; [|by apply Hout].
      left. by eexists _, _.
    + intros rq' bid b. cbn [booked_db bookings].
      intros [[= -> -> ->]|Hin]%elem_of_cons.
      * by rewrite lookup_insert_eq.
      * destruct (Hbook rq' bid b Hin) as [Hb Hst]. split; [|done].
        rewrite lookup_insert_ne; [done|]. intros <-.
        by apply (is_fresh (dom (bookings (sys_db sys)))), elem_of_dom.
  - (* the attempt rolls back *)
    pose proof E as ->%attemptBooking_Throw_inv.
    split; cbn [fst snd sys_db sys_inflight sys_returned]; try done.
    + intros k' a' [Hne Hk']%lookup_delete_Some. by apply (Hrows k').
    + intros k1 k2 a1 a2 id Hne [_ Hk1]%lookup_delete_Some
        [_ Hk2]%lookup_delete_Some.
      by apply (Hdisj k1 k2).
    + intros sid. rewrite Hcnt, confirmedCount_cons.
      by destruct (decide _).
    + intros rq' r [[= -> ->]|Hin]%elem_of_cons Hvalid; [|by apply Hout].
      destruct Hvalid as (Hnodup & [sh0 Hsh0] & Hseats).
      apply attemptBooking_Throw_cases in E
        as [[-> Hl]|[[-> Hlen]|[->|[-> Hfk]]]].
      * right. by left.
      * exfalso. apply Hlen, lock_rows_complete. split; [done|].
        intros id Hid. destruct (Hseats id Hid) as (s0 & Hs0 & Hsid).
        specialize (Hsh id). rewrite Hs0 in Hsh.
        destruct (seats (sys_db sys) !! id) as [s|]; [|done].
        injection Hsh as Hsh. exists s. split; [done|]. congruence.
      * right. by right.
      * exfalso. specialize (Hcnt (rq_showId rq)).
        rewrite Hfk, Hsh0 in Hcnt. done.
    + intros rq' bid b [[=]|Hin]%elem_of_cons. by eapply Hbook.
Qed.

Lemma sys_step_inv db0 sys sys' :
  sys_step sys sys' → sys_inv db0 sys → sys_inv db0 sys'.
Proof.
  destruct 1; [by apply sys_lock_inv|by apply sys_finish_inv].
Qed.

Lemma sys_reachable_inv db0 sys :
  rtc sys_step (initial db0) sys → sys_inv db0 sys.
Proof.
  revert sys. apply (rtc_ind_r (λ s, sys_inv db0 s)).
  - apply sys_inv_initial.
  - intros y z _ Hstep Hy. by eapply sys_step_inv.
Qed.

(** C4. Start any number of [attemptBooking] attempts on a database and
    interleave their lock queries and their commits in any order (a lock
    query may also fail on rows that are locked only for a moment). Among the
    attempts that have returned: no seat occurs twice in the seat lists of
    the bookings obtained, each of these bookings is a CONFIRMED row of the
    committed database and each of their seats is BOOKED; an attempt that
    asked for distinct seats of an existing show either obtained its booking
    or observed SEATS_LOCKED or SEATS_UNAVAILABLE; and the counter of every
    show has gone down by exactly the number of seats obtained for it. *)
Theorem concurrent_attempts_exclusive db0 sys :
  rtc sys_step (initial db0) sys →
  NoDup (confirmedSeats (sys_returned sys))
  ∧ (∀ rq bid b, (rq, Ok (bid, b)) ∈ sys_returned sys →
       bookings (sys_db sys) !! bid = Some b ∧ Booking.status b = CONFIRMED)
  ∧ (∀ id, id ∈ confirmedSeats (sys_returned sys) →
       ∃ s, seats (sys_db sys) !! id = Some s ∧ Seat.status s = BOOKED)
  ∧ (∀ rq r, (rq, r) ∈ sys_returned sys → valid_request db0 rq →
       contention_outcome rq r)
  ∧ (∀ sid sh0, shows db0 !! sid = Some sh0 →
       ∃ sh, shows (sys_db sys) !! sid = Some sh
             ∧ Show.availableSeats sh
               = Show.availableSeats sh0
                 - Z.of_nat (confirmedCount sid (sys_returned sys))).
Proof.
  intros Hreach.
  destruct (sys_reachable_inv db0 sys Hreach)
    as [_ _ Hbk Hnd Hcnt _ Hout Hbook].
  split; [done|]. split; [done|]. split; [done|]. split; [done|].
  intros sid sh0 Hsh0. specialize (Hcnt sid). rewrite Hsh0 in Hcnt.
  destruct (shows (sys_db sys) !! sid) as [sh|]; [|done].
  injection Hcnt as Hcnt. by exists sh.
Qed.

Example raceAB_result :
  (sys_returned raceAB).*2
  = [Ok ("0", Booking.mk "show1" (Some "a") ["s1"; "s2"] CONFIRMED 30 None);
     Throw SEATS_LOCKED]
  ∧ Show.availableSeats <$> shows (sys_db raceAB) !! "show1" = Some 1
  ∧ Seat.status <$> seats (sys_db raceAB) !! "s3" = Some AVAILABLE.
Proof. vm_compute. done. Qed.

Lemma concurrent_attempts_exclusive_witness :
  NoDup (confirmedSeats (sys_returned raceAB))
  ∧ (∀ rq bid b, (rq, Ok (bid, b)) ∈ sys_returned raceAB →
       bookings (sys_db raceAB) !! bid = Some b ∧ Booking.status b = CONFIRMED)
  ∧ (∀ id, id ∈ confirmedSeats (sys_returned raceAB) →
       ∃ s, seats (sys_db raceAB) !! id = Some s ∧ Seat.status s = BOOKED)
  ∧ (∀ rq r, (rq, r) ∈ sys_returned raceAB → valid_request threeSeats rq →
       contention_outcome rq r)
  ∧ (∀ sid sh0, shows threeSeats !! sid = Some sh0 →
       ∃ sh, shows (sys_db raceAB) !! sid = Some sh
             ∧ Show.availableSeats sh
               = Show.availableSeats sh0
                 - Z.of_nat (confirmedCount sid (sys_returned raceAB))).
Proof.
  apply (concurrent_attempts_exclusive threeSeats raceAB).
  unfold raceAB.
  eapply rtc_l; [apply (step_lock 1 10 ∅ requestA); reflexivity|].
  eapply rtc_l; [apply (step_lock 2 20 ∅ requestB); vm_compute; reflexivity|].
  eapply rtc_l; [apply (step_finish 1 30); vm_compute; by eexists|].
  apply rtc_refl.
Defined.

(** ** The scenarios of the specification, run on the model *)

(** A seat id that does not belong to the show: INVALID_SEATS. *)
Example scenario_foreign_seat :
  attemptBooking (quiet 10) "show1" ["s4"] None threeSeats
  = (Throw INVALID_SEATS, threeSeats).
Proof. vm_compute. reflexivity. Qed.

(** Request B made after request A has committed: SEATS_UNAVAILABLE, one
    seat left, and the untouched seat still AVAILABLE. *)
Example scenario_A_then_B :
  let dbA := (attemptBooking (quiet 10) "show1" ["s1"; "s2"] (Some "a")
                threeSeats).2 in
  let rB := attemptBooking (quiet 20) "show1" ["s2"; "s3"] (Some "b") dbA in
  rB.1 = Throw SEATS_UNAVAILABLE
  ∧ Show.availableSeats <$> shows rB.2 !! "show1" = Some 1
  ∧ Seat.status <$> seats rB.2 !! "s3" = Some AVAILABLE.
Proof. vm_compute. done. Qed.

(** A show created on the empty database and booked in full. *)
Example scenario_create_and_book :
  let db1 := (createShow (quiet 0)
                {| ins_name := "Concert"; ins_startTime := 100000;
                   ins_totalSeats := 2 |} emptyDatabase).2 in
  let ids := (map_to_list (seats db1)).*1 in
  let r := attemptBooking (quiet 10) "0" ids None db1 in
  length ids = 2%nat
  ∧ (Show.availableSeats <$> shows db1 !! "0") = Some 2
  ∧ (Show.availableSeats <$> shows r.2 !! "0") = Some 0
  ∧ size (bookedSeats "0" r.2) = 2%nat.
Proof. vm_compute. done. Qed.

(** * Further properties of the storage layer, the routes and the client *)

(** ** [createSeats], [createShow] and the reads of a show *)


Lemma seatValues_length showId count :
  length (seatValues showId count) = Z.to_nat count.
Proof. unfold seatValues. by rewrite length_fmap, length_seq. Qed.







(** X2. [createSeats] for a show that does not exist throws the foreign key
    violation of [seats.show_id], and with a count of zero or less there is
    no row to insert: in both cases the database is left as it was. *)
Theorem createSeats_inserts_nothing showId count db :
  (shows db !! showId = None → 1 ≤ count →
     createSeats showId count db = (Throw FOREIGN_KEY_VIOLATION, db))
  ∧ (count ≤ 0 → (createSeats showId count db).2 = db).
Proof.
  split.
  - intros Hnone Hcount. unfold createSeats.
    destruct (seatValues showId count) as [|v vs] eqn:Ev.
    + apply (f_equal length) in Ev. rewrite seatValues_length in Ev.
      simpl in Ev. lia.
    + by rewrite Hnone.
  - intros Hcount. unfold createSeats, seatValues.
    replace (Z.to_nat count) with 0%nat by lia. done.
Qed.


Lemma getSeatsByShowId_Permutation showId db :
  getSeatsByShowId showId db
  ≡ₚ map_to_list
       (select_where (λ _ s, bool_decide (Seat.showId s = showId)) (seats db)).
Proof. apply merge_sort_Permutation. Qed.

Lemma elem_of_getSeatsByShowId showId db id s :
  (id, s) ∈ getSeatsByShowId showId db
  ↔ seats db !! id = Some s ∧ Seat.showId s = showId.
Proof.
  rewrite getSeatsByShowId_Permutation, elem_of_map_to_list,
    lookup_select_where.
  by rewrite bool_decide_eq_true.
Qed.

Lemma getSeatsByShowId_Sorted showId db :
  Sorted Z.le (Seat.seatNumber <$> (getSeatsByShowId showId db).*2).
Proof.
  rewrite <- list_fmap_compose.
  apply (Sorted_fmap _ by_seatNumber Z.le); [done|].
  apply (Sorted_merge_sort by_seatNumber).
Qed.

(** X3. [getShowWithSeats] answers [undefined] exactly for an id that names
    no show; otherwise it returns the show row together with the seats of
    this show and no other: each seat once, in ascending order of seat
    number. *)
Theorem getShowWithSeats_lists_the_show id db :
  (getShowWithSeats id db = None ↔ shows db !! id = None)
  ∧ ∀ show rows, getShowWithSeats id db = Some (show, rows) →
      shows db !! id = Some show
      ∧ (∀ sid s, (sid, s) ∈ rows
                  ↔ seats db !! sid = Some s ∧ Seat.showId s = id)
      ∧ NoDup rows.*1
      ∧ Sorted Z.le (Seat.seatNumber <$> rows.*2).
Proof.
  unfold getShowWithSeats, getShowById. split.
  - by destruct (shows db !! id).
  - intros show rows. destruct (shows db !! id) as [sh|]; [|done].
    intros [= <- <-]. split; [done|]. split; [|split].
    + intros sid s. apply elem_of_getSeatsByShowId.
    + rewrite getSeatsByShowId_Permutation. apply NoDup_fst_map_to_list.
    + apply getSeatsByShowId_Sorted.
Qed.






(** ** [deleteShow] *)

(** X6. [deleteShow] returns true exactly when the show existed. Afterwards
    the show is gone together with every seat and every booking that
    referred to it (the cascade), and the other shows, the seats and the
    bookings of the other shows are exactly as before. *)
Theorem deleteShow_cascades id db :
  ((deleteShow id db).1 = true ↔ is_Some (shows db !! id))
  ∧ shows (deleteShow id db).2 !! id = None
  ∧ (∀ k, k ≠ id → shows (deleteShow id db).2 !! k = shows db !! k)
  ∧ (∀ k s, seats (deleteShow id db).2 !! k = Some s
            ↔ seats db !! k = Some s ∧ Seat.showId s ≠ id)
  ∧ (∀ k b, bookings (deleteShow id db).2 !! k = Some b
            ↔ bookings db !! k = Some b ∧ Booking.showId b ≠ id)
  ∧ getSeatsByShowId id (deleteShow id db).2 = [].
Proof.
  unfold deleteShow. cbn [fst snd shows seats bookings].
  split; [apply bool_decide_eq_true|].
  split; [apply lookup_delete_eq|].
  split; [intros k Hk; by apply lookup_delete_ne|].
  split; [intros k s; apply map_lookup_filter_Some|].
  split; [intros k b; apply map_lookup_filter_Some|].
  apply Permutation_nil_r. rewrite getSeatsByShowId_Permutation.
  cbn [seats]. rewrite select_where_none; [by rewrite map_to_list_empty|].
  intros k s [_ Hne]%map_lookup_filter_Some.
  by apply bool_decide_eq_false.
Qed.

(** X7. On a database whose seats and bookings all refer to existing shows,
    [deleteShow] for an id that names no show returns false and changes
    nothing; so deleting the same show a second time is without effect. *)
Theorem deleteShow_missing id db :
  seats_reference_shows db → bookings_reference_shows db →
  shows db !! id = None →
  deleteShow id db = (false, db)
  ∧ deleteShow id (deleteShow id db).2 = (false, (deleteShow id db).2).
Proof.
  intros Hfs Hfb Hnone.
  assert (E : deleteShow id db = (false, db)).
  { unfold deleteShow. f_equal.
    - apply bool_decide_eq_false. rewrite Hnone. by intros [? ?].
    - destruct db as [sh se bk]. cbn [shows seats bookings] in *. f_equal.
      + by apply delete_id.
      + apply map_filter_id. intros k s Hs. simpl.
        destruct (Hfs k s Hs) as [x Hx]. simpl in Hx. congruence.
      + apply map_filter_id. intros k b Hb. simpl.
        destruct (Hfb k b Hb) as [x Hx]. simpl in Hx. congruence. }
  split; [exact E|]. rewrite E. cbn [snd]. exact E.
Qed.

Lemma deleteShow_missing_witness :
  deleteShow "ghost" sampleDb = (false, sampleDb)
  ∧ deleteShow "ghost" (deleteShow "ghost" sampleDb).2
    = (false, (deleteShow "ghost" sampleDb).2).
Proof.
  apply (deleteShow_missing "ghost" sampleDb).
  - intros id s Hs. unfold sampleDb in Hs. simpl in Hs.
    exists (Show.mk "Concert" 100000 3 2 0).
    destruct (decide (id = "s1")) as [->|?]; [by simplify_map_eq|].
    destruct (decide (id = "s2")) as [->|?]; [by simplify_map_eq|].
    destruct (decide (id = "s3")) as [->|?]; [by simplify_map_eq|].
    by simplify_map_eq.
  - intros id b Hb. unfold sampleDb in Hb. simpl in Hb.
    by rewrite lookup_empty in Hb.
  - vm_compute; reflexivity.
Defined.

(** ** [updateShowAvailableSeats] and [markSeatsAsBooked] *)

Lemma int4_true z : int4 z = true ↔ -2147483648 ≤ z ≤ 2147483647.
Proof. unfold int4. apply bool_decide_eq_true. Qed.

Lemma database_eq db1 db2 :
  shows db1 = shows db2 → seats db1 = seats db2 →
  bookings db1 = bookings db2 → db1 = db2.
Proof. destruct db1, db2. simpl. by intros -> -> ->. Qed.

(** The UPDATE of [updateShowAvailableSeats], row by row. *)
Lemma add_available_lookup id delta (m : gmap string Show.t) k :
  update_where (λ k _, bool_decide (k = id)) (add_available delta) m !! k
  = (λ sh, if decide (k = id) then add_available delta sh else sh) <$> m !! k.
Proof.
  rewrite lookup_update_where. destruct (m !! k) as [sh|]; [|done].
  simpl. by destruct (decide (k = id));
    [rewrite bool_decide_eq_true_2|rewrite bool_decide_eq_false_2].
Qed.

(** The call on a number and a sum that fit a PostgreSQL [integer]. *)
Lemma updateShowAvailableSeats_Ok id delta db sh :
  int4 delta = true → shows db !! id = Some sh →
  int4 (Show.availableSeats sh + delta) = true →
  updateShowAvailableSeats id delta db
  = (Ok tt,
     with_shows
       (update_where (λ k _, bool_decide (k = id)) (add_available delta)) db).
Proof.
  intros Hd Hsh Hsum. unfold updateShowAvailableSeats.
  rewrite bool_decide_eq_false_2.
  - by rewrite Hd, Hsh, Hsum.
  - apply int4_true in Hd. change (10 ^ 21) with 1000000000000000000000. lia.
Qed.

(** X8. [updateShowAvailableSeats] on a number that fits a PostgreSQL
    [integer]: for an id that names no show it changes nothing; when the sum
    fits as well it adds the delta to the counter of the named show and to
    nothing else, two such updates add up, and the negated delta gives the
    database back (the counter having been in range before); when the sum
    does not fit it throws and changes nothing.
    On a number that does not fit it throws and changes nothing. The counter
    is checked against no other bound: it can go below zero or above
    [totalSeats]. *)
Theorem updateShowAvailableSeats_adds id delta db :
  let r := updateShowAvailableSeats id delta db in
  (int4 delta = false → ∃ e, r = (Throw e, db))
  ∧ (int4 delta = true → shows db !! id = None → r = (Ok tt, db))
  ∧ (∀ sh, int4 delta = true → shows db !! id = Some sh →
       int4 (Show.availableSeats sh + delta) = false →
       r = (Throw NUMERIC_VALUE_OUT_OF_RANGE, db))
  ∧ (∀ sh, int4 delta = true → shows db !! id = Some sh →
       int4 (Show.availableSeats sh + delta) = true →
       r.1 = Ok tt
       ∧ shows r.2 !! id
         = Some (Show.mk (Show.name sh) (Show.startTime sh)
                   (Show.totalSeats sh) (Show.availableSeats sh + delta)
                   (Show.createdAt sh))
       ∧ (∀ k, k ≠ id → shows r.2 !! k = shows db !! k)
       ∧ seats r.2 = seats db
       ∧ bookings r.2 = bookings db
       ∧ (∀ delta', int4 delta' = true → int4 (delta + delta') = true →
            int4 (Show.availableSeats sh + delta + delta') = true →
            updateShowAvailableSeats id delta' r.2
            = updateShowAvailableSeats id (delta + delta') db)
       ∧ (int4 (- delta) = true → int4 (Show.availableSeats sh) = true →
            updateShowAvailableSeats id (- delta) r.2 = (Ok tt, db))).
Proof.
  intros r. subst r. split_and!.
  - intros Hd. unfold updateShowAvailableSeats. rewrite Hd. simpl.
    case_bool_decide; eauto.
  - intros Hd Hnone. unfold updateShowAvailableSeats.
    rewrite Hd, Hnone. simpl. by case_bool_decide; [apply int4_true in Hd;
      change (10 ^ 21) with 1000000000000000000000 in *; lia|].
  - intros sh Hd Hsh Hsum. unfold updateShowAvailableSeats.
    rewrite Hd, Hsh, Hsum. simpl. by case_bool_decide; [apply int4_true in Hd;
      change (10 ^ 21) with 1000000000000000000000 in *; lia|].
  - intros sh Hd Hsh Hsum.
    rewrite (updateShowAvailableSeats_Ok id delta db sh Hd Hsh Hsum).
    cbn [fst snd with_shows shows seats bookings].
    assert (Hrow : update_where (λ k _, bool_decide (k = id))
                     (add_available delta) (shows db) !! id
                   = Some (add_available delta sh)).
    { rewrite add_available_lookup, Hsh. simpl. by rewrite decide_True. }
    assert (Hadd : ∀ delta', int4 delta' = true →
      int4 (Show.availableSeats sh + delta + delta') = true →
      updateShowAvailableSeats id delta'
        (with_shows (update_where (λ k _, bool_decide (k = id))
                       (add_available delta)) db)
      = (Ok tt,
         with_shows (update_where (λ k _, bool_decide (k = id))
                       (add_available (delta + delta'))) db)).
    { intros delta' Hd' Hsum'.
      rewrite (updateShowAvailableSeats_Ok id delta'
                 (with_shows (update_where (λ k _, bool_decide (k = id))
                                (add_available delta)) db)
                 (add_available delta sh) Hd' Hrow Hsum').
      f_equal. apply database_eq; try done. cbn [with_shows shows].
      apply map_eq. intros k. rewrite !add_available_lookup.
      destruct (shows db !! k) as [[n st tot av cr]|]; [|done]. simpl.
      destruct (decide (k = id)); [|done].
      unfold add_available. simpl. do 2 f_equal. lia. }
    split_and!; try done.
    + intros k Hk. rewrite add_available_lookup.
      destruct (shows db !! k); [|done]. simpl. by rewrite decide_False.
    + intros delta' Hd' Hdd Hsum'. rewrite (Hadd delta' Hd' Hsum').
      symmetry.
      apply (updateShowAvailableSeats_Ok id (delta + delta') db sh);
        [done..|].
      by rewrite Z.add_assoc.
    + intros Hneg Hav. rewrite (Hadd (- delta) Hneg).
      * f_equal. apply database_eq; try done. cbn [with_shows shows].
        apply map_eq. intros k. rewrite add_available_lookup.
        destruct (shows db !! k) as [[n st tot av cr]|] eqn:Hk; [|done].
        simpl. destruct (decide (k = id)); [|done].
        unfold add_available. simpl. do 2 f_equal. lia.
      * by replace (Show.availableSeats sh + delta + - delta)
          with (Show.availableSeats sh) by lia.
Qed.

(** The largest delta a PostgreSQL [integer] takes, added to a counter of 3,
    and a delta that does not fit. *)
Example updateShowAvailableSeats_out_of_range :
  updateShowAvailableSeats "show1" 2147483647 threeSeats
  = (Throw NUMERIC_VALUE_OUT_OF_RANGE, threeSeats)
  ∧ updateShowAvailableSeats "show1" 2147483648 threeSeats
    = (Throw NUMERIC_VALUE_OUT_OF_RANGE, threeSeats)
  ∧ shows (updateShowAvailableSeats "show1" (-5) threeSeats).2 !! "show1"
    = Some (Show.mk "Concert" 100000 3 (-2) 0).
Proof. split_and!; reflexivity. Qed.

Lemma markSeatsAsBooked_throw `{ArrayIn} (seatIds : list string)
    (db : Database) e :
  sql_any seatIds = inl e → markSeatsAsBooked seatIds db = (Throw e, db).
Proof. intros E. unfold markSeatsAsBooked. by rewrite E. Qed.

(** X9. The two halves of a deferred confirmation do not keep the counter.
    For a list of seat ids that is not one array literal,
    [markSeatsAsBooked] throws and books nothing; [updateShowAvailableSeats]
    with minus the number of seats, the other half, then succeeds on its
    own and leaves the show with a counter that is no longer
    [totalSeats − number of BOOKED seats]. *)
Theorem deferred_confirmation_breaks_counter `{ArrayIn} showId seatIds db sh :
  counter_ok db →
  (∀ x, seatIds = [x] → array_in x = None) →
  seatIds ≠ [] →
  shows db !! showId = Some sh →
  int4 (- Z.of_nat (length seatIds)) = true →
  int4 (Show.availableSeats sh - Z.of_nat (length seatIds)) = true →
  let n := Z.of_nat (length seatIds) in
  (∃ e, markSeatsAsBooked seatIds db = (Throw e, db))
  ∧ (updateShowAvailableSeats showId (- n) (markSeatsAsBooked seatIds db).2).1
    = Ok tt
  ∧ ¬ counter_ok
        (updateShowAvailableSeats showId (- n)
           (markSeatsAsBooked seatIds db).2).2.
Proof.
  intros Hok Hord Hne Hsh Hn Hsum n.
  destruct (sql_any_ordinary _ Hord) as [e E].
  rewrite (markSeatsAsBooked_throw _ _ _ E). cbn [snd].
  rewrite (updateShowAvailableSeats_Ok showId (- n) db sh Hn Hsh Hsum).
  split; [by exists e|]. split; [done|].
  intros Hbad. cbn [snd] in Hbad.
  specialize (Hbad showId (add_available (- n) sh)).
  cbn [with_shows shows] in Hbad.
  rewrite add_available_lookup, Hsh in Hbad. simpl in Hbad.
  rewrite decide_True in Hbad by done. specialize (Hbad eq_refl).
  pose proof (Hok showId sh Hsh) as Hc.
  change (bookedSeats showId (with_shows _ db))
    with (bookedSeats showId db) in Hbad.
  subst n. destruct seatIds; [done|]. simpl length in Hbad. lia.
Qed.

Lemma deferred_confirmation_breaks_counter_witness :
  (∃ e, @markSeatsAsBooked sampleArrays ["s1"; "s2"] threeSeats
        = (Throw e, threeSeats))
  ∧ (updateShowAvailableSeats "show1" (-2)
       (@markSeatsAsBooked sampleArrays ["s1"; "s2"] threeSeats).2).1
    = Ok tt
  ∧ ¬ counter_ok
        (updateShowAvailableSeats "show1" (-2)
           (@markSeatsAsBooked sampleArrays ["s1"; "s2"] threeSeats).2).2.
Proof.
  apply (@deferred_confirmation_breaks_counter sampleArrays "show1"
           ["s1"; "s2"] threeSeats (Show.mk "Concert" 100000 3 3 0)).
  - intros id sh Hsh. cbn [threeSeats shows] in Hsh.
    apply lookup_singleton_Some in Hsh as [<- <-]. vm_compute. reflexivity.
  - intros x [=].
  - done.
  - reflexivity.
  - reflexivity.
  - reflexivity.
Defined.

(** ** [lockSeats]: the hold *)

(** X10. [lockSeats] never throws and is all or nothing. It returns true
    exactly when the ids are pairwise distinct, each names a seat that is
    AVAILABLE or held past its deadline, and none of the selected rows is
    locked by another transaction; then every listed seat is PENDING until
    the given deadline and no other row has changed. In every other case it
    returns false and the database is as before. *)
Theorem lockSeats_all_or_nothing env seatIds until db :
  let ok := NoDup seatIds
            ∧ (∀ id, id ∈ seatIds →
                 ∃ s, seats db !! id = Some s ∧ acquirable (now env) s)
            ∧ dom (free_rows env seatIds db) ## lockedByOthers env in
  (ok → lockSeats env seatIds until db
        = (Ok true,
           with_seats (update_where (λ id _, any_of seatIds id)
                         (set_seat PENDING (Some until))) db))
  ∧ (¬ ok → lockSeats env seatIds until db = (Ok false, db))
  ∧ (∀ id, id ∉ seatIds →
       seats (lockSeats env seatIds until db).2 !! id = seats db !! id)
  ∧ shows (lockSeats env seatIds until db).2 = shows db
  ∧ bookings (lockSeats env seatIds until db).2 = bookings db.
Proof.
  intros ok. subst ok. rewrite lockSeats_cases.
  destruct (decide (dom _ ## _)) as [Hfree|Hheld].
  - destruct (decide (length _ ≠ length seatIds)) as [Hlen|Hlen].
    + split; [|by repeat split].
      intros (Hnd & Hall & _). exfalso. by apply Hlen, free_rows_complete.
    + apply dec_stable in Hlen. apply free_rows_complete in Hlen as [Hnd Hall].
      split; [done|]. split; [intros Hn; exfalso; by apply Hn|].
      split; [|done]. intros id Hid. cbn [snd with_seats seats].
      rewrite lookup_update_where. destruct (seats db !! id); [|done].
      simpl. unfold any_of. by rewrite bool_decide_eq_false_2.
  - split; [|by repeat split]. by intros (_ & _ & ?).
Qed.

(** X11. A hold that is still valid keeps the others out: once [lockSeats]
    has returned true with a deadline, and as long as the clock has not
    passed the deadline, no [attemptBooking] whose request contains one of
    the held seats returns a booking, and no [lockSeats] whose list contains
    one of them returns true; both leave the database as it is. *)
Theorem valid_hold_excludes env seatIds until db env' showId seatIds' userId
    until' id :
  (lockSeats env seatIds until db).1 = Ok true →
  id ∈ seatIds → id ∈ seatIds' →
  now env' ≤ until →
  let held := (lockSeats env seatIds until db).2 in
  (∃ e, attemptBooking env' showId seatIds' userId held = (Throw e, held))
  ∧ lockSeats env' seatIds' until' held = (Ok false, held).
Proof.
  intros Htrue Hid Hid' Hnow held.
  assert (Hrow : ∃ s, seats held !! id = Some s ∧ Seat.status s = PENDING
                      ∧ Seat.lockedUntil s = Some until).
  { subst held. revert Htrue. rewrite lockSeats_cases.
    destruct (decide (dom _ ## _)); [|done].
    destruct (decide (length _ ≠ length seatIds)) as [|Hlen]; [done|].
    intros _. apply dec_stable in Hlen.
    apply free_rows_complete in Hlen as [_ Hall].
    destruct (Hall id Hid) as (s & Hs & _).
    exists (set_seat PENDING (Some until) s). split; [|done].
    cbn [snd with_seats seats]. rewrite lookup_update_where, Hs. simpl.
    unfold any_of. by rewrite bool_decide_eq_true_2. }
  destruct Hrow as (s & Hs & Hst & Hlu).
  assert (Hnot : ¬ acquirable (now env') s).
  { intros [Ha|[_ (t & Ht & Hlt)]]; [congruence|].
    rewrite Hlu in Ht. injection Ht as <-. lia. }
  split.
  - destruct (attemptBooking env' showId seatIds' userId held)
      as [[r|e] db'] eqn:E.
    + exfalso. apply attemptBooking_Ok_inv in E as (_ & _ & Hall & _).
      destruct (Hall id Hid') as (s' & Hs' & _ & Hacq).
      rewrite Hs in Hs'. injection Hs' as <-. done.
    + exists e. by apply attemptBooking_Throw_inv in E as ->.
  - rewrite lockSeats_cases.
    destruct (decide (dom _ ## _)); [|done].
    destruct (decide (length _ ≠ length seatIds')) as [|Hlen]; [done|].
    exfalso. apply dec_stable in Hlen.
    apply free_rows_complete in Hlen as [_ Hall].
    destruct (Hall id Hid') as (s' & Hs' & Hacq).
    rewrite Hs in Hs'. injection Hs' as <-. done.
Qed.

Lemma valid_hold_excludes_witness :
  let held := (lockSeats (quiet 1000) ["s1"; "s2"] 5000 sampleDb).2 in
  (∃ e, attemptBooking (quiet 5000) "show1" ["s2"] None held = (Throw e, held))
  ∧ lockSeats (quiet 5000) ["s2"] 9000 held = (Ok false, held).
Proof.
  apply (valid_hold_excludes (quiet 1000) ["s1"; "s2"] 5000 sampleDb
           (quiet 5000) "show1" ["s2"] None 9000 "s2").
  - vm_compute; reflexivity.
  - apply elem_of_cons. right. by left.
  - by left.
  - simpl. lia.
Defined.

Lemma lockSeats_held env seatIds until db id :
  (lockSeats env seatIds until db).1 = Ok true → id ∈ seatIds →
  ∃ s, seats (lockSeats env seatIds until db).2 !! id = Some s
       ∧ Seat.status s = PENDING ∧ Seat.lockedUntil s = Some until.
Proof.
  intros Htrue Hid. revert Htrue. rewrite lockSeats_cases.
  destruct (decide (dom _ ## _)); [|done].
  destruct (decide (length _ ≠ length seatIds)) as [|Hlen]; [done|].
  intros _. apply dec_stable in Hlen.
  apply free_rows_complete in Hlen as [_ Hall].
  destruct (Hall id Hid) as (s & Hs & _).
  exists (set_seat PENDING (Some until) s). split; [|done].
  cbn [snd with_seats seats]. rewrite lookup_update_where, Hs. simpl.
  unfold any_of. by rewrite bool_decide_eq_true_2.
Qed.

(** X12. A hold is neither given back nor confirmed by the functions made
    for it. After [lockSeats] has returned true on a list of seat ids that is
    not one array literal, [unlockSeats] and [markSeatsAsBooked] on the same
    list both throw and leave the database as it is, so every listed seat is
    still PENDING with the deadline of the hold. *)
Theorem hold_is_not_given_back `{ArrayIn} env seatIds until db :
  (∀ x, seatIds = [x] → array_in x = None) →
  (lockSeats env seatIds until db).1 = Ok true →
  let held := (lockSeats env seatIds until db).2 in
  (∃ e, unlockSeats seatIds held = (Throw e, held))
  ∧ (∃ e, markSeatsAsBooked seatIds held = (Throw e, held))
  ∧ ∀ id, id ∈ seatIds →
      ∃ s, seats (unlockSeats seatIds held).2 !! id = Some s
           ∧ Seat.status s = PENDING ∧ Seat.lockedUntil s = Some until.
Proof.
  intros Hord Htrue held.
  destruct (sql_any_ordinary _ Hord) as [e E].
  rewrite (unlockSeats_throw _ _ _ E), (markSeatsAsBooked_throw _ _ _ E).
  split; [by exists e|]. split; [by exists e|].
  intros id Hid. cbn [snd]. by apply lockSeats_held.
Qed.

Lemma hold_is_not_given_back_witness :
  let held := (lockSeats (quiet 10) ["s1"; "s3"] 5000 threeSeats).2 in
  (∃ e, @unlockSeats sampleArrays ["s1"; "s3"] held = (Throw e, held))
  ∧ (∃ e, @markSeatsAsBooked sampleArrays ["s1"; "s3"] held = (Throw e, held))
  ∧ ∀ id, id ∈ ["s1"; "s3"] →
      ∃ s, seats (@unlockSeats sampleArrays ["s1"; "s3"] held).2 !! id = Some s
           ∧ Seat.status s = PENDING ∧ Seat.lockedUntil s = Some 5000.
Proof.
  apply (@hold_is_not_given_back sampleArrays (quiet 10) ["s1"; "s3"] 5000
           threeSeats).
  - intros x [=].
  - vm_compute; reflexivity.
Defined.

(** X13. A hold and the sweep: after [lockSeats] has returned true with a
    deadline, [releaseExpiredLocks] run while the clock has not passed the
    deadline leaves each held seat PENDING with its deadline, and run once
    the clock has passed it resets each of them to AVAILABLE with no
    deadline. *)
Theorem hold_until_deadline env seatIds until db env' id :
  (lockSeats env seatIds until db).1 = Ok true →
  id ∈ seatIds →
  let held := (lockSeats env seatIds until db).2 in
  ∃ s, seats held !! id = Some s
    ∧ Seat.status s = PENDING ∧ Seat.lockedUntil s = Some until
    ∧ (now env' ≤ until →
         seats (releaseExpiredLocks env' held).2 !! id = Some s)
    ∧ (until < now env' →
         seats (releaseExpiredLocks env' held).2 !! id
         = Some (set_seat AVAILABLE None s)).
Proof.
  intros Htrue Hid held. subst held. revert Htrue. rewrite lockSeats_cases.
  destruct (decide (dom _ ## _)); [|done].
  destruct (decide (length _ ≠ length seatIds)) as [|Hlen]; [done|].
  intros _. apply dec_stable in Hlen.
  apply free_rows_complete in Hlen as [_ Hall].
  destruct (Hall id Hid) as (s & Hs & _).
  exists (set_seat PENDING (Some until) s). cbn [snd].
  assert (Hrow : seats (with_seats (update_where (λ id _, any_of seatIds id)
                          (set_seat PENDING (Some until))) db) !! id
                 = Some (set_seat PENDING (Some until) s)).
  { cbn [with_seats seats]. rewrite lookup_update_where, Hs. simpl.
    unfold any_of. by rewrite bool_decide_eq_true_2. }
  split; [done|]. split; [done|]. split; [done|]. split.
  - intros Hnow. rewrite releaseExpiredLocks_lookup, Hrow. simpl.
    unfold pending_expired, expired. simpl.
    by rewrite bool_decide_eq_false_2 by lia.
  - intros Hnow. rewrite releaseExpiredLocks_lookup, Hrow. simpl.
    unfold pending_expired, expired. simpl.
    by rewrite bool_decide_eq_true_2 by lia.
Qed.

Lemma hold_until_deadline_witness :
  let held := (lockSeats (quiet 10) ["s1"] 5000 threeSeats).2 in
  ∃ s, seats held !! "s1" = Some s
    ∧ Seat.status s = PENDING ∧ Seat.lockedUntil s = Some 5000
    ∧ (now (quiet 5001) ≤ 5000 →
         seats (releaseExpiredLocks (quiet 5001) held).2 !! "s1" = Some s)
    ∧ (5000 < now (quiet 5001) →
         seats (releaseExpiredLocks (quiet 5001) held).2 !! "s1"
         = Some (set_seat AVAILABLE None s)).
Proof.
  apply (hold_until_deadline (quiet 10) ["s1"] 5000 threeSeats (quiet 5001) "s1").
  - vm_compute; reflexivity.
  - by left.
Defined.

(** ** [attemptBooking]: the decision, the frame, and what stays booked *)

(** X14. The decision of [attemptBooking], test by test. It throws
    SEATS_LOCKED exactly when a selected row is locked by another
    transaction; otherwise INVALID_SEATS exactly when the ids are not
    pairwise distinct seats of the show; otherwise SEATS_UNAVAILABLE
    exactly when one of the seats is neither AVAILABLE nor held past its
    deadline; otherwise the booking is made if the show exists. *)
Theorem attemptBooking_decision env showId seatIds userId db :
  let r := (attemptBooking env showId seatIds userId db).1 in
  let unlocked := dom (lock_rows showId seatIds db) ## lockedByOthers env in
  let valid := NoDup seatIds
               ∧ ∀ id, id ∈ seatIds →
                   ∃ s, seats db !! id = Some s ∧ Seat.showId s = showId in
  let free := ∀ id s, id ∈ seatIds → seats db !! id = Some s →
                acquirable (now env) s in
  (r = Throw SEATS_LOCKED ↔ ¬ unlocked)
  ∧ (r = Throw INVALID_SEATS ↔ unlocked ∧ ¬ valid)
  ∧ (r = Throw SEATS_UNAVAILABLE ↔ unlocked ∧ valid ∧ ¬ free)
  ∧ ((∃ b, r = Ok b)
     ↔ unlocked ∧ valid ∧ free ∧ is_Some (shows db !! showId)).
Proof.
  intros r unlocked valid free. subst r unlocked valid free.
  rewrite attemptBooking_cases. cbv zeta.
  destruct (decide (dom _ ## _)) as [Hl|Hl].
  2:{ cbn [fst]. split; [done|]. split; [split; [done|by intros [? _]]|].
      split; [split; [done|by intros [? _]]|].
      split; [by intros [? ?]|by intros [? _]]. }
  destruct (decide (length _ ≠ length seatIds)) as [Hlen|Hlen].
  { assert (Hnv : ¬ (NoDup seatIds ∧ ∀ id, id ∈ seatIds →
                       ∃ s, seats db !! id = Some s ∧ Seat.showId s = showId))
      by (intros Hv; by apply Hlen, lock_rows_complete).
    cbn [fst]. split; [split; [done|by intros ?]|].
    split; [done|]. split; [split; [done|by intros (_ & ? & _)]|].
    split; [by intros [? ?]|by intros (_ & ? & _)]. }
  apply dec_stable in Hlen. pose proof Hlen as Hv%lock_rows_complete.
  assert (Hfree_iff :
    ¬ (0 < length (List.filter (unavailable (now env))
                     (map_to_list (lock_rows showId seatIds db))))%nat
    ↔ ∀ id s, id ∈ seatIds → seats db !! id = Some s →
        acquirable (now env) s).
  { rewrite no_unavailable_rows. split.
    - intros Hrows id s Hid Hs. destruct Hv as [_ Hall].
      destruct (Hall id Hid) as (s' & Hs' & Hsh).
      rewrite Hs in Hs'. injection Hs' as <-.
      apply (unavailable_false (now env) (id, s)), Hrows.
      apply elem_of_map_to_list, lookup_select_where. split; [done|].
      apply andb_true_iff. unfold any_of.
      by split; apply bool_decide_eq_true.
    - intros Hfree [id s] Hrow. apply unavailable_false.
      apply elem_of_map_to_list, lookup_select_where in Hrow as [Hs HP].
      apply andb_true_iff in HP as [Hid _].
      apply bool_decide_eq_true in Hid. by apply (Hfree id). }
  destruct (decide (0 < _)%nat) as [Hun|Hun].
  { assert (Hnf : ¬ ∀ id s, id ∈ seatIds → seats db !! id = Some s →
                      acquirable (now env) s)
      by (intros Hf; exact (proj2 Hfree_iff Hf Hun)).
    cbn [fst]. split; [split; [done|by intros ?]|].
    split; [split; [done|by intros [_ ?]]|]. split; [done|].
    split; [by intros [? ?]|by intros (_ & _ & ? & _)]. }
  pose proof (proj1 Hfree_iff Hun) as Hfree.
  destruct (shows db !! showId) as [sh|] eqn:Hsh; cbn [fst].
  - split; [split; [done|by intros ?]|].
    split; [split; [done|by intros [_ ?]]|].
    split; [split; [done|by intros (_ & _ & ?)]|].
    split; [by eauto|by eexists].
  - split; [split; [done|by intros ?]|].
    split; [split; [done|by intros [_ ?]]|].
    split; [split; [done|by intros (_ & _ & ?)]|].
    split; [by intros [? ?]|by intros (_ & _ & _ & [? ?])].
Qed.

(** X15. What a successful [attemptBooking] leaves alone, and what it
    writes: the seats that were not requested, the shows other than the one
    booked and every booking that existed are exactly as before; the booking
    table has one row more; the new row has the creation time of the call,
    no expiry date, and as user the one given, or none when the user id is
    absent or the empty string. *)
Theorem attemptBooking_frame env showId seatIds userId db bid b db' :
  attemptBooking env showId seatIds userId db = (Ok (bid, b), db') →
  (∀ id, id ∉ seatIds → seats db' !! id = seats db !! id)
  ∧ (∀ k, k ≠ showId → shows db' !! k = shows db !! k)
  ∧ (∀ k, k ≠ bid → bookings db' !! k = bookings db !! k)
  ∧ size (bookings db') = S (size (bookings db))
  ∧ dom (seats db') = dom (seats db)
  ∧ dom (shows db') = dom (shows db)
  ∧ Booking.createdAt b = now env
  ∧ Booking.expiresAt b = None
  ∧ Booking.userId b
    = (if decide (userId = Some EmptyString) then None else userId).
Proof.
  intros E. apply attemptBooking_Ok_inv in E as (_ & _ & _ & _ & [= -> ->] & ->).
  cbn [booked_db seats shows bookings].
  split; [|split; [|split; [|split; [|split; [|split]]]]].
  - intros id Hid. rewrite lookup_update_where.
    destruct (seats db !! id); [|done]. simpl. unfold any_of.
    by rewrite bool_decide_eq_false_2.
  - intros k Hk. rewrite lookup_update_where.
    destruct (shows db !! k); [|done]. simpl.
    by rewrite bool_decide_eq_false_2.
  - intros k Hk. by rewrite lookup_insert_ne.
  - apply map_size_insert_None, not_elem_of_dom, is_fresh.
  - apply dom_update_where.
  - apply dom_update_where.
  - split; [done|]. split; [done|]. cbn [confirmed_booking Booking.userId].
    destruct userId as [[|c u]|]; done.
Qed.

Lemma attemptBooking_frame_witness :
  let r := attemptBooking (quiet 10) "show1" ["s1"] (Some "") threeSeats in
  (∀ id, id ∉ ["s1"] → seats r.2 !! id = seats threeSeats !! id)
  ∧ (∀ k, k ≠ "show1" → shows r.2 !! k = shows threeSeats !! k)
  ∧ (∀ k, k ≠ "0" → bookings r.2 !! k = bookings threeSeats !! k)
  ∧ size (bookings r.2) = S (size (bookings threeSeats))
  ∧ dom (seats r.2) = dom (seats threeSeats)
  ∧ dom (shows r.2) = dom (shows threeSeats)
  ∧ Booking.createdAt (Booking.mk "show1" None ["s1"] CONFIRMED 10 None) = 10
  ∧ Booking.expiresAt (Booking.mk "show1" None ["s1"] CONFIRMED 10 None) = None
  ∧ Booking.userId (Booking.mk "show1" None ["s1"] CONFIRMED 10 None)
    = (if decide (Some "" = Some EmptyString) then None else Some "").
Proof.
  apply (attemptBooking_frame (quiet 10) "show1" ["s1"] (Some "") threeSeats
           "0" (Booking.mk "show1" None ["s1"] CONFIRMED 10 None)).
  vm_compute; reflexivity.
Defined.

(** X16. A seat that is BOOKED is out of reach: whatever the clock, the
    user, the locks and the other seats of the request, an [attemptBooking]
    whose list contains a BOOKED seat returns no booking, a [lockSeats]
    whose list contains one returns false, and both leave the database as
    it is. *)
Theorem booked_seat_is_final env showId seatIds userId until db id s :
  seats db !! id = Some s → Seat.status s = BOOKED → id ∈ seatIds →
  (∃ e, attemptBooking env showId seatIds userId db = (Throw e, db))
  ∧ lockSeats env seatIds until db = (Ok false, db).
Proof.
  intros Hs Hb Hid.
  assert (Hnot : ∀ t, ¬ acquirable t s).
  { intros t Ha. by apply acquirable_not_BOOKED in Ha. }
  split.
  - destruct (attemptBooking env showId seatIds userId db)
      as [[r|e] db'] eqn:E.
    + exfalso. apply attemptBooking_Ok_inv in E as (_ & _ & Hall & _).
      destruct (Hall id Hid) as (s' & Hs' & _ & Hacq).
      rewrite Hs in Hs'. injection Hs' as <-. by eapply Hnot.
    + exists e. by apply attemptBooking_Throw_inv in E as ->.
  - rewrite lockSeats_cases.
    destruct (decide (dom _ ## _)); [|done].
    destruct (decide (length _ ≠ length seatIds)) as [|Hlen]; [done|].
    exfalso. apply dec_stable in Hlen.
    apply free_rows_complete in Hlen as [_ Hall].
    destruct (Hall id Hid) as (s' & Hs' & Hacq).
    rewrite Hs in Hs'. injection Hs' as <-. by eapply Hnot.
Qed.

Lemma booked_seat_is_final_witness :
  (∃ e, attemptBooking (quiet 99999) "show1" ["s1"; "s3"] (Some "u") sampleDb
        = (Throw e, sampleDb))
  ∧ lockSeats (quiet 99999) ["s1"; "s3"] 100000 sampleDb = (Ok false, sampleDb).
Proof.
  apply (booked_seat_is_final (quiet 99999) "show1" ["s1"; "s3"] (Some "u")
           100000 sampleDb "s3" (Seat.mk "show1" 3 BOOKED None)).
  - vm_compute; reflexivity.
  - reflexivity.
  - apply elem_of_cons. right. by left.
Defined.

(** X17. No committed operation of the storage layer takes a BOOKED seat
    back: after any one of [createShow], [attemptBooking], [lockSeats],
    [unlockSeats], [releaseExpiredLocks], [createBooking] and
    [updateBookingStatus] a seat that was BOOKED has the same row, and
    after [deleteShow] it has the same row unless it was a seat of the
    deleted show, in which case the row is gone with the show. *)
Theorem booked_seat_stays_booked `{ArrayIn} db db' id s :
  committed db db' →
  seats db !! id = Some s → Seat.status s = BOOKED →
  seats db' !! id = Some s
  ∨ (seats db' !! id = None ∧ shows db' !! Seat.showId s = None).
Proof.
  intros Hstep Hs Hb.
  assert (Hkeep : ∀ P st lu,
    (∀ k r, seats db !! k = Some r → P k r = true → Seat.status r ≠ BOOKED) →
    update_where P (set_seat st lu) (seats db) !! id = Some s).
  { intros P st lu HP. rewrite lookup_update_where, Hs. simpl.
    destruct (P id s) eqn:E; [|done]. by destruct (HP id s Hs E). }
  destruct Hstep.
  - left. unfold createShow.
    destruct (createSeats _ _ _) as [[rows|e] db2] eqn:E;
      apply (f_equal snd) in E; cbn [snd] in *; subst db2;
      by apply createSeats_keeps.
  - cbn [deleteShow snd seats shows].
    destruct (decide (Seat.showId s = id0)) as [<-|Hne].
    + right. split; [|apply lookup_delete_eq].
      apply map_lookup_filter_None. right. intros s' Hs'.
      rewrite Hs in Hs'. injection Hs' as <-. simpl. by intros ?.
    + left. by apply map_lookup_filter_Some.
  - left.
    destruct (attemptBooking env showId seatIds userId db)
      as [[res|e] db2] eqn:E; cbn [snd].
    + apply attemptBooking_Ok_inv in E as (_ & _ & Hall & _ & _ & ->).
      cbn [booked_db seats]. apply Hkeep. intros k r Hr Hk.
      apply bool_decide_eq_true in Hk.
      destruct (Hall k Hk) as (r' & Hr' & _ & Hacq).
      rewrite Hr in Hr'. injection Hr' as <-.
      by eapply acquirable_not_BOOKED.
    + by apply attemptBooking_Throw_inv in E as ->.
  - left. rewrite lockSeats_cases.
    destruct (decide (dom _ ## _)); [|done].
    destruct (decide (length _ ≠ length seatIds)) as [|Hlen]; [done|].
    apply dec_stable in Hlen. apply free_rows_complete in Hlen as [_ Hall].
    cbn [snd with_seats seats]. apply Hkeep. intros k r Hr Hk.
    apply bool_decide_eq_true in Hk.
    destruct (Hall k Hk) as (r' & Hr' & Hacq).
    rewrite Hr in Hr'. injection Hr' as <-.
    by eapply acquirable_not_BOOKED.
  - left. unfold unlockSeats. destruct (sql_any seatIds) as [e|ids]; [done|].
    cbn [snd with_seats seats]. apply Hkeep.
    intros k r _ [_ Hp]%andb_true_iff.
    apply bool_decide_eq_true in Hp. by rewrite Hp.
  - left. cbn [releaseExpiredLocks snd with_seats seats]. apply Hkeep.
    intros k r _ [Hp _]%pending_expired_true. by rewrite Hp.
  - left. unfold createBooking. tx_unfold.
    destruct (shows db !! _); tx_unfold; done.
  - by left.
Qed.

Lemma booked_seat_stays_booked_witness :
  seats (releaseExpiredLocks (quiet 99999) sampleDb).2 !! "s3"
    = Some (Seat.mk "show1" 3 BOOKED None)
  ∨ (seats (releaseExpiredLocks (quiet 99999) sampleDb).2 !! "s3" = None
     ∧ shows (releaseExpiredLocks (quiet 99999) sampleDb).2
         !! Seat.showId (Seat.mk "show1" 3 BOOKED None) = None).
Proof.
  apply (@booked_seat_stays_booked sampleArrays sampleDb
           (releaseExpiredLocks (quiet 99999) sampleDb).2 "s3"
           (Seat.mk "show1" 3 BOOKED None)).
  - apply committed_releaseExpiredLocks.
  - vm_compute; reflexivity.
  - reflexivity.
Defined.

(** ** Booking rows: [createBooking], [getBookingById],
    [updateBookingStatus], [getExpiredPendingBookings] *)

Lemma createBooking_cases env insertBooking db :
  createBooking env insertBooking db
  = let b := Booking.mk (ib_showId insertBooking) (ib_userId insertBooking)
               (ib_seatIds insertBooking)
               (default BK_PENDING (ib_status insertBooking))
               (now env) (Some (now env + 2 * 60 * 1000)) in
    match shows db !! ib_showId insertBooking with
    | None => (Throw FOREIGN_KEY_VIOLATION, db)
    | Some _ =>
      (Ok (fresh (dom (bookings db)), b),
       with_bookings (insert (fresh (dom (bookings db))) b) db)
    end.
Proof.
  unfold createBooking. tx_unfold.
  destruct (shows db !! _); tx_unfold; done.
Qed.

(** X18. [createBooking] for an existing show returns a booking under an
    id that was not in use; [getBookingById] then finds exactly this row,
    and every other booking as before. The row is PENDING unless a status
    was given, it expires 120000 ms after the call, and it holds nothing:
    the shows and the seats (status and deadline of each) are untouched,
    whatever the state of the seats it lists. For a show that does not
    exist the call throws and changes nothing. *)
Theorem createBooking_then_get env insertBooking db :
  (is_Some (shows db !! ib_showId insertBooking) →
   ∃ id b,
     (createBooking env insertBooking db).1 = Ok (id, b)
     ∧ getBookingById id db = None
     ∧ getBookingById id (createBooking env insertBooking db).2 = Some b
     ∧ (∀ k, k ≠ id →
          getBookingById k (createBooking env insertBooking db).2
          = getBookingById k db)
     ∧ Booking.status b = default BK_PENDING (ib_status insertBooking)
     ∧ Booking.expiresAt b = Some (now env + 120000)
     ∧ Booking.createdAt b = now env
     ∧ Booking.showId b = ib_showId insertBooking
     ∧ Booking.seatIds b = ib_seatIds insertBooking
     ∧ Booking.userId b = ib_userId insertBooking
     ∧ seats (createBooking env insertBooking db).2 = seats db
     ∧ shows (createBooking env insertBooking db).2 = shows db)
  ∧ (shows db !! ib_showId insertBooking = None →
     createBooking env insertBooking db = (Throw FOREIGN_KEY_VIOLATION, db)).
Proof.
  rewrite createBooking_cases. cbv zeta. split.
  - intros [sh Hsh]. rewrite Hsh. eexists _, _. cbn [fst snd].
    unfold getBookingById. cbn [with_bookings bookings seats shows].
    split; [done|]. split; [apply not_elem_of_dom, is_fresh|].
    split; [apply lookup_insert_eq|].
    split; [intros k Hk; by apply lookup_insert_ne|].
    by repeat split.
  - by intros ->.
Qed.

Lemma updateBookingStatus_lookup id status db k :
  bookings (updateBookingStatus id status db).2 !! k
  = (λ b, if decide (k = id) then set_booking_status status b else b)
      <$> bookings db !! k.
Proof.
  unfold updateBookingStatus. cbn [snd with_bookings bookings].
  rewrite lookup_update_where. destruct (bookings db !! k) as [b|]; [|done].
  simpl. by destruct (decide (k = id));
    [rewrite bool_decide_eq_true_2|rewrite bool_decide_eq_false_2].
Qed.

(** X19. [updateBookingStatus] returns [undefined] and changes nothing for
    an id that names no booking. For an existing booking it returns the row
    with the new status and every other field as it was, stores it, and
    leaves the other bookings, the seats and the shows alone. It checks no
    transition: the status is overwritten whatever it was (a FAILED or
    CONFIRMED booking can be set back to PENDING), and of two updates in a
    row the second one wins. *)
Theorem updateBookingStatus_overwrites id status db :
  (bookings db !! id = None → updateBookingStatus id status db = (None, db))
  ∧ (∀ b, bookings db !! id = Some b →
       (updateBookingStatus id status db).1
       = Some (Booking.mk (Booking.showId b) (Booking.userId b)
                 (Booking.seatIds b) status (Booking.createdAt b)
                 (Booking.expiresAt b))
       ∧ bookings (updateBookingStatus id status db).2 !! id
         = (updateBookingStatus id status db).1)
  ∧ (∀ k, k ≠ id →
       bookings (updateBookingStatus id status db).2 !! k = bookings db !! k)
  ∧ seats (updateBookingStatus id status db).2 = seats db
  ∧ shows (updateBookingStatus id status db).2 = shows db
  ∧ (∀ status',
       (updateBookingStatus id status'
          (updateBookingStatus id status db).2).2
       = (updateBookingStatus id status' db).2).
Proof.
  split; [|split; [|split; [|split; [done|split; [done|]]]]].
  - intros Hnone. unfold updateBookingStatus. rewrite Hnone. cbn [fmap option_fmap option_map].
    f_equal. apply database_eq; try done. cbn [with_bookings bookings].
    apply update_where_none. intros k b Hk. apply bool_decide_eq_false.
    intros ->. congruence.
  - intros b Hb. split.
    + unfold updateBookingStatus. cbn [fst]. by rewrite Hb.
    + rewrite updateBookingStatus_lookup.
      unfold updateBookingStatus. cbn [fst]. rewrite Hb. simpl.
      by rewrite decide_True.
  - intros k Hk. rewrite updateBookingStatus_lookup.
    destruct (bookings db !! k); [|done]. simpl. by rewrite decide_False.
  - intros status'. apply database_eq; try done. apply map_eq. intros k.
    rewrite !updateBookingStatus_lookup.
    destruct (bookings db !! k) as [b|]; [|done]. simpl.
    by destruct (decide (k = id)).
Qed.

Lemma elem_of_getExpiredPendingBookings env db id b :
  (id, b) ∈ getExpiredPendingBookings env db
  ↔ bookings db !! id = Some b ∧ Booking.status b = BK_PENDING
    ∧ ∃ t, Booking.expiresAt b = Some t ∧ t < now env.
Proof.
  unfold getExpiredPendingBookings.
  rewrite elem_of_map_to_list, lookup_select_where.
  by rewrite booking_expired_true.
Qed.

(** X20. Which bookings the reaper's query finds. A booking made by
    [createBooking] with the default status is returned by
    [getExpiredPendingBookings] exactly when the clock is more than
    120000 ms past its creation; a booking made by [attemptBooking] is never
    returned, at any time; and once [updateBookingStatus] has set a booking
    to FAILED or CONFIRMED it is not returned any more. *)
Theorem expired_pending_bookings env env' db :
  (∀ insertBooking id b,
     ib_status insertBooking = None →
     (createBooking env insertBooking db).1 = Ok (id, b) →
     ((id, b) ∈ getExpiredPendingBookings env'
                  (createBooking env insertBooking db).2
      ↔ now env + 120000 < now env'))
  ∧ (∀ showId seatIds userId id b db',
       attemptBooking env showId seatIds userId db = (Ok (id, b), db') →
       ∀ row, row ∈ getExpiredPendingBookings env' db' → row.1 ≠ id)
  ∧ (∀ id status row,
       status ≠ BK_PENDING →
       row ∈ getExpiredPendingBookings env'
               (updateBookingStatus id status db).2 →
       row.1 ≠ id).
Proof.
  split; [|split].
  - intros insertBooking id b Hst. rewrite createBooking_cases. cbv zeta.
    destruct (shows db !! _) as [sh|]; [|done]. cbn [fst snd].
    intros [= <- <-]. rewrite elem_of_getExpiredPendingBookings.
    cbn [with_bookings bookings]. rewrite lookup_insert_eq, Hst. simpl.
    split.
    + intros (_ & _ & t & [= <-] & Hlt). lia.
    + intros Hlt. split; [done|]. split; [done|].
      eexists. split; [done|]. lia.
  - intros showId seatIds userId id b db' E [k b'] Hrow.
    apply attemptBooking_Ok_inv in E as (_ & _ & _ & _ & [= -> ->] & ->).
    apply elem_of_getExpiredPendingBookings in Hrow as (Hk & Hst & _).
    simpl. intros ->. cbn [booked_db bookings] in Hk.
    rewrite lookup_insert_eq in Hk. injection Hk as <-. done.
  - intros id status [k b'] Hne Hrow.
    apply elem_of_getExpiredPendingBookings in Hrow as (Hk & Hst & _).
    simpl. intros ->. rewrite updateBookingStatus_lookup in Hk.
    destruct (bookings db !! id) as [b0|]; [|done]. simpl in Hk.
    rewrite decide_True in Hk by done. injection Hk as <-. done.
Qed.

(** ** [getAllShows] *)

(** X21. [getAllShows] lists every show of the table once, and nothing
    else, in ascending order of start time. *)
Theorem getAllShows_lists_all db :
  (∀ id sh, (id, sh) ∈ getAllShows db ↔ shows db !! id = Some sh)
  ∧ NoDup (getAllShows db).*1
  ∧ length (getAllShows db) = size (shows db)
  ∧ Sorted Z.le (Show.startTime <$> (getAllShows db).*2).
Proof.
  unfold getAllShows. split; [|split; [|split]].
  - intros id sh. by rewrite merge_sort_Permutation, elem_of_map_to_list.
  - rewrite merge_sort_Permutation. apply NoDup_fst_map_to_list.
  - by rewrite merge_sort_Permutation, length_map_to_list.
  - rewrite <- list_fmap_compose.
    apply (Sorted_fmap _ by_startTime Z.le); [done|].
    apply (Sorted_merge_sort by_startTime).
Qed.

(** ** [POST /api/bookings] *)

(** X22. The booking route. It answers 201 with the booking exactly when
    the body names a show and at least one seat, the show exists and has
    not started, and [attemptBooking] returns the booking; 404 exactly when
    the body is valid and the show does not exist; 400 without calling
    [attemptBooking] when the show has started, even if the seats are free;
    never 500; and with every answer other than 201 the database is as
    before. *)
Theorem postBooking_responses env showId seatIds userId db :
  let r := postBooking env showId seatIds userId db in
  let valid := showId ≠ EmptyString ∧ seatIds ≠ [] in
  (∀ b, r.1 = Created b
        ↔ valid
          ∧ (∃ sh, shows db !! showId = Some sh
                   ∧ now env ≤ Show.startTime sh)
          ∧ (attemptBooking env showId seatIds userId db).1 = Ok b)
  ∧ (r.1 = NotFound ↔ valid ∧ shows db !! showId = None)
  ∧ (∀ sh, valid → shows db !! showId = Some sh →
       Show.startTime sh < now env → r = (BadRequest, db))
  ∧ (r.1 = Conflict
     ↔ valid
       ∧ (∃ sh, shows db !! showId = Some sh ∧ now env ≤ Show.startTime sh)
       ∧ ((attemptBooking env showId seatIds userId db).1 = Throw SEATS_LOCKED
          ∨ (attemptBooking env showId seatIds userId db).1
            = Throw SEATS_UNAVAILABLE))
  ∧ r.1 ≠ ServerError
  ∧ ((∀ b, r.1 ≠ Created b) → r.2 = db).
Proof.
  intros r valid. subst r valid. unfold postBooking, getShowById.
  destruct (decide (showId = EmptyString)) as [Hs|Hs].
  { rewrite bool_decide_eq_true_2 by done. cbn [orb fst snd].
    split_and!; try naive_solver. }
  rewrite (bool_decide_eq_false_2 (showId = EmptyString)) by done.
  destruct (decide (seatIds = [])) as [Hl|Hl].
  { rewrite bool_decide_eq_true_2 by done. cbn [orb fst snd].
    split_and!; try naive_solver. }
  rewrite (bool_decide_eq_false_2 (seatIds = [])) by done. cbn [orb].
  destruct (shows db !! showId) as [sh|] eqn:Hsh.
  2:{ cbn [fst snd]. split_and!; try naive_solver. }
  destruct (decide (Show.startTime sh < now env)) as [Hpast|Hfut].
  { rewrite bool_decide_eq_true_2 by done. cbn [fst snd].
    split_and!; try naive_solver lia. }
  rewrite bool_decide_eq_false_2 by done.
  destruct (attemptBooking env showId seatIds userId db) as [[b|e] db'] eqn:E.
  - cbn [fst snd]. split_and!; try naive_solver lia.
  - pose proof E as ->%attemptBooking_Throw_inv.
    apply attemptBooking_Throw_cases in E
      as [[-> _]|[[-> _]|[->|[-> Hfk]]]]; [| | |congruence];
      cbn [fst snd]; split_and!; try naive_solver lia.
Qed.

(** ** The seat selection of the booking page *)

Lemma elem_of_handleSeatToggle seatId prev id :
  id ∈ handleSeatToggle seatId prev
  ↔ (id = seatId ∧ seatId ∉ prev) ∨ (id ≠ seatId ∧ id ∈ prev).
Proof.
  unfold handleSeatToggle. case_bool_decide as Hin.
  - rewrite list_elem_of_In, filter_In, <- list_elem_of_In.
    rewrite bool_decide_eq_true. naive_solver.
  - rewrite elem_of_app, list_elem_of_singleton.
    destruct (decide (id = seatId)); naive_solver.
Qed.

Lemma NoDup_List_filter {A} (f : A → bool) (l : list A) :
  NoDup l → NoDup (List.filter f l).
Proof.
  induction 1 as [|x l Hx Hnd IH]; simpl; [constructor|].
  destruct (f x); [|done]. constructor; [|done].
  rewrite list_elem_of_In, filter_In, <- list_elem_of_In. naive_solver.
Qed.

Lemma handleSeatToggle_NoDup seatId prev :
  NoDup prev → NoDup (handleSeatToggle seatId prev).
Proof.
  intros Hnd. unfold handleSeatToggle. case_bool_decide as Hin.
  - by apply NoDup_List_filter.
  - apply NoDup_app. split; [done|]. split; [|apply NoDup_singleton].
    intros x Hx ->%list_elem_of_singleton. done.
Qed.

(** X23. [handleSeatToggle] flips the membership of the seat it is given
    and of no other seat; it keeps a selection free of duplicates; and
    selecting a seat that was not selected and toggling it again gives the
    selection back. *)
Theorem handleSeatToggle_flips seatId prev :
  (seatId ∈ handleSeatToggle seatId prev ↔ seatId ∉ prev)
  ∧ (∀ id, id ≠ seatId → (id ∈ handleSeatToggle seatId prev ↔ id ∈ prev))
  ∧ (NoDup prev → NoDup (handleSeatToggle seatId prev))
  ∧ (seatId ∉ prev →
       handleSeatToggle seatId (handleSeatToggle seatId prev) = prev).
Proof.
  split; [|split; [|split]].
  - rewrite elem_of_handleSeatToggle. naive_solver.
  - intros id Hne. rewrite elem_of_handleSeatToggle. naive_solver.
  - apply handleSeatToggle_NoDup.
  - intros Hnin. unfold handleSeatToggle at 2.
    rewrite bool_decide_eq_false_2 by done.
    unfold handleSeatToggle. rewrite bool_decide_eq_true_2
      by (apply elem_of_app; right; by left).
    rewrite List.filter_app. simpl.
    rewrite (bool_decide_eq_false_2 (seatId ≠ seatId)) by (by intros ?).
    rewrite app_nil_r. apply forallb_filter_id, forallb_forall.
    intros x Hx%list_elem_of_In. apply bool_decide_eq_true. by intros ->.
Qed.

Lemma onSeatClick_selects disabled seat sel id :
  id ∈ onSeatClick disabled seat sel →
  id ∈ sel ∨ (id = seat.1 ∧ disabled = false
              ∧ Seat.status seat.2 = AVAILABLE).
Proof.
  unfold onSeatClick, isInteractive, getSeatStatus.
  destruct disabled; [rewrite andb_false_r; by left|].
  rewrite andb_true_r.
  destruct (decide (seat.1 ∈ sel)) as [Hsel|Hsel].
  - rewrite (bool_decide_eq_true_2 (seat.1 ∈ sel)) by done. simpl.
    rewrite elem_of_handleSeatToggle. naive_solver.
  - rewrite (bool_decide_eq_false_2 (seat.1 ∈ sel)) by done.
    destruct seat as [sid [sh n st lu]]. simpl in *.
    destruct st; simpl; try by left.
    rewrite elem_of_handleSeatToggle. naive_solver.
Qed.

Lemma onSeatClick_NoDup disabled seat sel :
  NoDup sel → NoDup (onSeatClick disabled seat sel).
Proof.
  intros Hnd. unfold onSeatClick.
  destruct (_ && _); [by apply handleSeatToggle_NoDup|done].
Qed.

Lemma clickSeats_snoc disabled clicks seat :
  clickSeats disabled (clicks ++ [seat])
  = onSeatClick disabled seat (clickSeats disabled clicks).
Proof. unfold clickSeats. by rewrite foldl_app. Qed.

(** X24. Whatever buttons of the seat grid are clicked, starting from the
    empty selection: the selection never lists a seat twice; every selected
    seat was clicked on a button that showed it AVAILABLE (a BOOKED or
    PENDING seat that is not selected cannot be selected); and while the
    grid is disabled nothing is selected. *)
Theorem clickSeats_selection disabled clicks :
  NoDup (clickSeats disabled clicks)
  ∧ (∀ id, id ∈ clickSeats disabled clicks →
       ∃ s, (id, s) ∈ clicks ∧ Seat.status s = AVAILABLE)
  ∧ (disabled = true → clickSeats disabled clicks = []).
Proof.
  induction clicks as [|seat clicks IH] using rev_ind.
  - split; [constructor|]. split; [|done].
    intros id Hid. by apply elem_of_nil in Hid.
  - destruct IH as (Hnd & Hsel & Hdis). rewrite clickSeats_snoc.
    split; [by apply onSeatClick_NoDup|]. split.
    + intros id [Hid|(-> & _ & Hst)]%onSeatClick_selects.
      * destruct (Hsel id Hid) as (s & Hs & Hst). exists s.
        split; [|done]. apply elem_of_app. by left.
      * exists seat.2. split; [|done]. apply elem_of_app. right.
        destruct seat. by left.
    + intros ->. rewrite (Hdis eq_refl). unfold onSeatClick.
      by rewrite andb_false_r.
Qed.

Lemma handleConfirmBooking_sends env showId sel db :
  sel ≠ [] →
  handleConfirmBooking env showId sel db
  = Some (postBooking env showId sel None db).
Proof. by destruct sel. Qed.

(** X25. From the seat grid to the database. When the buttons clicked show
    seats of the show as the database has them, the show exists and has not
    started, and no other transaction holds the rows, then
    [handleConfirmBooking] either sends nothing, because nothing is
    selected, or the route answers 201 with a CONFIRMED booking for exactly
    the selected seats, each of which is BOOKED afterwards: a selection made
    in the grid is never refused as INVALID_SEATS. *)
Theorem confirm_selection env showId clicks db sh :
  showId ≠ EmptyString →
  shows db !! showId = Some sh → now env ≤ Show.startTime sh →
  (∀ id s, (id, s) ∈ clicks →
     seats db !! id = Some s ∧ Seat.showId s = showId) →
  (∀ id s, (id, s) ∈ clicks → id ∉ lockedByOthers env) →
  let sel := clickSeats false clicks in
  (sel = [] ∧ handleConfirmBooking env showId sel db = None)
  ∨ ∃ bid b db',
      handleConfirmBooking env showId sel db = Some (Created (bid, b), db')
      ∧ Booking.status b = CONFIRMED
      ∧ Booking.seatIds b = sel
      ∧ ∀ id, id ∈ sel →
          ∃ s, seats db' !! id = Some s ∧ Seat.status s = BOOKED.
Proof.
  intros Hid Hsh Hfut Hgrid Hfree sel.
  destruct (clickSeats_selection false clicks) as (Hnd & Hsel & _).
  fold sel in Hnd, Hsel. clearbody sel.
  destruct (decide (sel = [])) as [->|Hne]; [by left|]. right.
  assert (E : attemptBooking env showId sel None db
              = (Ok (fresh (dom (bookings db)),
                     confirmed_booking env showId sel None),
                 booked_db env showId sel None db)).
  { apply attemptBooking_Ok_intro; [done| |by eexists|].
    - intros id Hin. destruct (Hsel id Hin) as (s & Hs & Hst).
      destruct (Hgrid id s Hs) as [Hdb Hshow].
      exists s. split; [done|]. split; [done|]. by left.
    - intros id Hin. destruct (Hsel id Hin) as (s & Hs & _).
      by eapply Hfree. }
  eexists _, _, _. split.
  - rewrite handleConfirmBooking_sends by done.
    unfold postBooking, getShowById.
    rewrite (bool_decide_eq_false_2 (showId = EmptyString)) by done.
    rewrite (bool_decide_eq_false_2 (sel = [])) by done.
    cbn [orb]. rewrite Hsh.
    rewrite bool_decide_eq_false_2 by lia. by rewrite E.
  - split; [done|]. split; [done|].
    intros id Hin. destruct (Hsel id Hin) as (s & Hs & _).
    destruct (Hgrid id s Hs) as [Hdb _].
    exists (set_seat BOOKED None s). split; [|done].
    cbn [booked_db seats]. rewrite lookup_update_where, Hdb. simpl.
    unfold any_of. by rewrite bool_decide_eq_true_2.
Qed.

Lemma confirm_selection_witness :
  let sel := clickSeats false
               [("s1", Seat.mk "show1" 1 AVAILABLE None);
                ("s3", Seat.mk "show1" 3 AVAILABLE None);
                ("s1", Seat.mk "show1" 1 AVAILABLE None);
                ("s2", Seat.mk "show1" 2 AVAILABLE None)] in
  (sel = [] ∧ handleConfirmBooking (quiet 10) "show1" sel threeSeats = None)
  ∨ ∃ bid b db',
      handleConfirmBooking (quiet 10) "show1" sel threeSeats
        = Some (Created (bid, b), db')
      ∧ Booking.status b = CONFIRMED
      ∧ Booking.seatIds b = sel
      ∧ ∀ id, id ∈ sel →
          ∃ s, seats db' !! id = Some s ∧ Seat.status s = BOOKED.
Proof.
  apply (confirm_selection (quiet 10) "show1" _ threeSeats
           (Show.mk "Concert" 100000 3 3 0)).
  - discriminate.
  - vm_compute; reflexivity.
  - simpl. lia.
  - intros id s Hin. repeat (apply elem_of_cons in Hin as [[= -> ->]|Hin];
      [split; [vm_compute; reflexivity|reflexivity]|]).
    by apply elem_of_nil in Hin.
  - intros id s _. simpl. apply not_elem_of_empty.
Defined.

(** ** Users *)

Lemma createUser_cases insertUser users :
  (∀ k u, users !! k = Some u →
     User.username u ≠ User.username insertUser) →
  createUser insertUser users
  = (inr (fresh (dom users), insertUser),
     <[fresh (dom users) := insertUser]> users).
Proof.
  intros Hnew. unfold createUser. rewrite decide_True; [done|].
  apply select_where_none. intros k u Hk. apply bool_decide_eq_false.
  by apply (Hnew k).
Qed.

(** X26. [createUser] and the unique user name. When no user has the name,
    [createUser] stores the user under an id that was not in use, after
    which [getUser] with this id and [getUserByUsername] with the name both
    find it, and the other users are as before. When the name is taken it
    raises the unique violation and changes nothing. In both cases a table
    without two users of the same name stays one. *)
Theorem createUser_unique insertUser users :
  usernames_unique users →
  ((∀ k u, users !! k = Some u →
      User.username u ≠ User.username insertUser) →
   ∃ id, (createUser insertUser users).1 = inr (id, insertUser)
     ∧ getUser id users = None
     ∧ getUser id (createUser insertUser users).2 = Some insertUser
     ∧ getUserByUsername (User.username insertUser)
         (createUser insertUser users).2 = Some (id, insertUser)
     ∧ ∀ k, k ≠ id →
         getUser k (createUser insertUser users).2 = getUser k users)
  ∧ (∀ k u, users !! k = Some u →
       User.username u = User.username insertUser →
       createUser insertUser users = (inl UNIQUE_VIOLATION, users))
  ∧ usernames_unique (createUser insertUser users).2.
Proof.
  intros Huniq. split; [|split].
  - intros Hnew. rewrite createUser_cases by done.
    set (id := fresh (dom users)).
    assert (Hfresh : users !! id = None) by apply not_elem_of_dom, is_fresh.
    exists id. cbn [fst snd]. unfold getUser.
    split; [done|]. split; [done|].
    split; [apply lookup_insert_eq|].
    split; [|intros k Hk; by apply lookup_insert_ne].
    unfold getUserByUsername.
    assert (Hsel : select_where
              (λ _ u, bool_decide (User.username u = User.username insertUser))
              (<[id := insertUser]> users)
            = {[id := insertUser]}).
    { apply map_eq. intros k. apply option_eq. intros u.
      rewrite lookup_select_where, bool_decide_eq_true,
        lookup_singleton_Some, lookup_insert_Some.
      split.
      - intros [[[-> ->]|[Hne Hk]] Hname]; [done|].
        by destruct (Hnew k u Hk).
      - intros [-> ->]. split; [by left|done]. }
    rewrite Hsel. by rewrite map_to_list_singleton.
  - intros k u Hk Hname. unfold createUser. rewrite decide_False; [done|].
    intros Hempty.
    assert (Hin : select_where
              (λ _ u, bool_decide (User.username u = User.username insertUser))
              users !! k = Some u).
    { apply lookup_select_where. split; [done|]. by apply bool_decide_eq_true. }
    rewrite Hempty, lookup_empty in Hin. done.
  - unfold createUser. destruct (decide _) as [Hempty|]; [|done].
    cbn [snd]. assert (Hnew : ∀ k u, users !! k = Some u →
                         User.username u ≠ User.username insertUser).
    { intros k u Hk Hname.
      assert (Hin : select_where
                (λ _ u, bool_decide (User.username u = User.username insertUser))
                users !! k = Some u).
      { apply lookup_select_where. split; [done|].
        by apply bool_decide_eq_true. }
      rewrite Hempty, lookup_empty in Hin. done. }
    intros id1 id2 u1 u2.
    rewrite !lookup_insert_Some.
    intros [[<- <-]|[Hne1 H1]] [[<- <-]|[Hne2 H2]] Hname; try done.
    + by destruct (Hnew id2 u2 H2).
    + by destruct (Hnew id1 u1 H1).
    + by apply (Huniq id1 id2 u1 u2).
Qed.

Lemma createUser_unique_witness :
  (∃ id, (createUser (User.mk "cat" "pw3") sampleUsers).1
         = inr (id, User.mk "cat" "pw3")
     ∧ getUser id sampleUsers = None
     ∧ getUser id (createUser (User.mk "cat" "pw3") sampleUsers).2
       = Some (User.mk "cat" "pw3")
     ∧ getUserByUsername "cat" (createUser (User.mk "cat" "pw3") sampleUsers).2
       = Some (id, User.mk "cat" "pw3")
     ∧ ∀ k, k ≠ id →
         getUser k (createUser (User.mk "cat" "pw3") sampleUsers).2
         = getUser k sampleUsers)
  ∧ createUser (User.mk "ann" "pw4") sampleUsers
    = (inl UNIQUE_VIOLATION, sampleUsers)
  ∧ usernames_unique (createUser (User.mk "cat" "pw3") sampleUsers).2.
Proof.
  assert (Hrows : ∀ k u, sampleUsers !! k = Some u →
            (k = "u1" ∧ u = User.mk "ann" "pw1")
            ∨ (k = "u2" ∧ u = User.mk "bob" "pw2")).
  { intros k u Hk. unfold sampleUsers in Hk.
    apply lookup_insert_Some in Hk as [[<- <-]|[_ Hk]]; [by left|].
    apply lookup_singleton_Some in Hk as [<- <-]. by right. }
  assert (Huniq : usernames_unique sampleUsers).
  { intros id1 id2 u1 u2 H1 H2 Heq.
    destruct (Hrows _ _ H1) as [[-> ->]|[-> ->]],
      (Hrows _ _ H2) as [[-> ->]|[-> ->]]; done. }
  destruct (createUser_unique (User.mk "cat" "pw3") sampleUsers Huniq)
    as (Hnew & _ & Hafter).
  destruct (createUser_unique (User.mk "ann" "pw4") sampleUsers Huniq)
    as (_ & Htaken & _).
  split; [|split; [|exact Hafter]].
  - apply Hnew. intros k u Hk.
    destruct (Hrows _ _ Hk) as [[-> ->]|[-> ->]]; done.
  - apply (Htaken "u1" (User.mk "ann" "pw1")); reflexivity.
Defined.
